(** * chat.go: the per-room broadcast actor and the register/login glue

    A shallow embedding of [src/chat.go].  The goroutine [Chatroom] is a
    loop around a three-way [select]; its local state ([archive],
    [subscribers]) and the buffered channels it creates are made explicit, and
    every point at which the goroutine can block (a receive of the [select],
    a send on a subscriber channel, the reply on the caller's channel) is a
    separate transition.  The socket.io callbacks [register] and [login] are
    functions on the process-wide [chatRooms] map. *)

From Stdlib Require Import ZArith Lia Ascii String.
From stdpp Require Import base option list gmap strings sorting.

(** ** Data model *)

(** [type Event struct] *)
Record Event := mkEvent {
  EvtType : string;
  User : string;
  Timestamp : Z;
  Text : string
}.

(** A buffered [chan Event]: its capacity and the elements queued in it,
    oldest first.  Channels are identified by their index in the store of all
    channels made so far (reference equality in the source). *)
Record Chan := mkChan {
  cap : nat;
  buf : list Event
}.

(** [type Subscription struct]: [New] is the identity of the channel. *)
Record Subscription := mkSubscription {
  Archive : list Event;
  New : nat
}.

(** [NewEvent]; the clock reading [time.Now().Unix()] is an argument. *)
Definition NewEvent (now : Z) (evtType user msg : string) : Event :=
  mkEvent evtType user now msg.

(** ** The goroutine [Chatroom] *)

Module Actor.

(** Where the goroutine stands: at the [select] (line 91), at the reply
    [c <- Subscription{...}] (line 105), or inside the fan-out loop of the
    publish case (lines 110-116) with the channels still to be served. *)
Inductive pc :=
| Idle
| Replying (s : Subscription)
| Fanout (event : Event) (rest : list nat).

Record Room := mkRoom {
  archive : list Event;
  subscribers : list nat;
  heap : list Chan;
  ctl : pc
}.

(** [archive := list.New(); subscribers := list.New()] *)
Definition new_room : Room := mkRoom [] [] [] Idle.

(** Transitions.  The first six belong to the goroutine, the last two to the
    client that holds a subscription ([<-s.New], and the drain loop of
    [Cancel]).  A receive on a channel that holds nothing waits, so it is no
    transition; the drain loop is a [select] with a [default] and never waits,
    not even on a channel that was never made. *)
Inductive label :=
| RecvSubscribe
| SendReply
| RecvPublish (event : Event)
| SendNext
| Store
| RecvUnsubscribe (c : nat)
| ClientRecv (c : nat)
| ClientDrain (c : nat).

(** What a transition lets the outside see. *)
Inductive obs :=
| Replied (s : Subscription)
| Delivered (c : nat) (event : Event)
| Received (c : nat) (event : Event).

(** Lines 93-99: the loop that copies the archive into the slice [events]. *)
Definition copy_archive (a : list Event) : list Event :=
  foldl (fun events e => events ++ [e]) [] a.

(** Lines 119-122. *)
Definition push_archive (a : list Event) (event : Event) : list Event :=
  (if 20 <=? length a then tail a else a) ++ [event].

(** Lines 125-132: remove the first element equal to [c], then [break]. *)
Fixpoint remove_first (c : nat) (l : list nat) : list nat :=
  match l with
  | [] => []
  | subscriber :: l' =>
      if decide (subscriber = c) then l' else subscriber :: remove_first c l'
  end.

(** Lines 56-65: take values out of the channel until it is empty. *)
Fixpoint drain (q : list Event) : list Event :=
  match q with
  | [] => []
  | _ :: q' => drain q'
  end.

Definition set_ctl (r : Room) (p : pc) : Room :=
  mkRoom (archive r) (subscribers r) (heap r) p.

Definition step (r : Room) (l : label) : option (Room * list obs) :=
  match l, ctl r with
  | RecvSubscribe, Idle =>
      let events := copy_archive (archive r) in
      let subscriber := length (heap r) in
      Some (mkRoom (archive r) (subscribers r ++ [subscriber])
                   (heap r ++ [mkChan 10 []])
                   (Replying (mkSubscription events subscriber)), [])
  | SendReply, Replying s => Some (set_ctl r Idle, [Replied s])
  | RecvPublish event, Idle =>
      Some (set_ctl r (Fanout event (subscribers r)), [])
  | SendNext, Fanout event (subscriber :: rest) =>
      match heap r !! subscriber with
      | Some ch =>
          if decide (length (buf ch) < cap ch) then
            Some (mkRoom (archive r) (subscribers r)
                         (<[subscriber := mkChan (cap ch) (buf ch ++ [event])]> (heap r))
                         (Fanout event rest),
                  [Delivered subscriber event])
          else None
      | None => None
      end
  | Store, Fanout event [] =>
      Some (mkRoom (push_archive (archive r) event) (subscribers r) (heap r) Idle, [])
  | RecvUnsubscribe c, Idle =>
      Some (mkRoom (archive r) (remove_first c (subscribers r)) (heap r) Idle, [])
  | ClientRecv c, _ =>
      match heap r !! c with
      | Some (mkChan k (event :: q)) =>
          Some (mkRoom (archive r) (subscribers r) (<[c := mkChan k q]> (heap r)) (ctl r),
                [Received c event])
      | _ => None
      end
  | ClientDrain c, _ =>
      match heap r !! c with
      | Some ch =>
          Some (mkRoom (archive r) (subscribers r)
                       (<[c := mkChan (cap ch) (drain (buf ch))]> (heap r)) (ctl r), [])
      | None => Some (r, [])
      end
  | _, _ => None
  end.

Fixpoint run (r : Room) (tr : list label) : option (Room * list obs) :=
  match tr with
  | [] => Some (r, [])
  | l :: tr' =>
      match step r l with
      | Some (r1, o1) =>
          match run r1 tr' with
          | Some (r2, o2) => Some (r2, o1 ++ o2)
          | None => None
          end
      | None => None
      end
  end.

(** The events accepted on [ch.publish], in order. *)
Fixpoint published (tr : list label) : list Event :=
  match tr with
  | [] => []
  | RecvPublish event :: tr' => event :: published tr'
  | _ :: tr' => published tr'
  end.

(** The events a client took out of channel [c], in order. *)
Fixpoint received (c : nat) (os : list obs) : list Event :=
  match os with
  | [] => []
  | Received c' event :: os' =>
      if decide (c' = c) then event :: received c os' else received c os'
  | _ :: os' => received c os'
  end.

(** The events the goroutine put into channel [c], in order. *)
Fixpoint delivered (c : nat) (os : list obs) : list Event :=
  match os with
  | [] => []
  | Delivered c' event :: os' =>
      if decide (c' = c) then event :: delivered c os' else delivered c os'
  | _ :: os' => delivered c os'
  end.

Definition bufOf (r : Room) (c : nat) : list Event :=
  match heap r !! c with
  | Some ch => buf ch
  | None => []
  end.

(** The event of a publish that has been accepted but not stored yet. *)
Definition inflight (r : Room) : list Event :=
  match ctl r with
  | Fanout event _ => [event]
  | _ => []
  end.

(** The event that the running fan-out still owes to channel [c]. *)
Definition pending (r : Room) (c : nat) : list Event :=
  match ctl r with
  | Fanout event rest => if decide (c ∈ rest) then [event] else []
  | _ => []
  end.

Definition lastn {A} (n : nat) (l : list A) : list A := drop (length l - n) l.

(** States the goroutine can be in, started on a fresh room. *)
Definition reachable (r : Room) : Prop :=
  ∃ tr o, run new_room tr = Some (r, o).

(** The members are distinct channels that exist, and a fan-out serves each
    channel once. *)
Definition wf (r : Room) : Prop :=
  NoDup (subscribers r) ∧
  (∀ c, c ∈ subscribers r → c < length (heap r)) ∧
  (match ctl r with
   | Fanout _ rest => NoDup rest
   | _ => True
   end).

(** No [Cancel] of the subscription on channel [c] happens in [tr]. *)
Definition uncancelled (c : nat) (tr : list label) : Prop :=
  ∀ l, l ∈ tr → l ≠ RecvUnsubscribe c ∧ l ≠ ClientDrain c.

(** Channel [c] exists, is no member, and no running fan-out will serve it. *)
Definition retired (c : nat) (r : Room) : Prop :=
  c < length (heap r) ∧
  (c ∉ subscribers r) ∧
  (match ctl r with
   | Fanout _ rest => c ∉ rest
   | _ => True
   end).

(** Every member has room for one more event in its queue. *)
Definition has_room (r : Room) : Prop :=
  ∀ c, c ∈ subscribers r →
    ∃ ch, heap r !! c = Some ch ∧ length (buf ch) < cap ch.

(** The publish case in the order the specification gives it, to compare
    with [step]: the event is stored when it is accepted and the fan-out
    follows.  Everything else is [step]. *)
Definition spec_step (r : Room) (l : label) : option (Room * list obs) :=
  match l, ctl r with
  | RecvPublish event, Idle =>
      Some (mkRoom (push_archive (archive r) event) (subscribers r) (heap r)
                   (Fanout event (subscribers r)), [])
  | Store, Fanout event [] => Some (set_ctl r Idle, [])
  | _, _ => step r l
  end.

Fixpoint spec_run (r : Room) (tr : list label) : option (Room * list obs) :=
  match tr with
  | [] => Some (r, [])
  | l :: tr' =>
      match spec_step r l with
      | Some (r1, o1) =>
          match spec_run r1 tr' with
          | Some (r2, o2) => Some (r2, o1 ++ o2)
          | None => None
          end
      | None => None
      end
  end.

(** What that order means for an observer: whenever the goroutine has just
    put an event into a queue, the event is already the newest element of
    the archive.  [exec] is the way traces are run. *)
Definition appends_before_delivering
    (exec : Room → list label → option (Room * list obs)) : Prop :=
  ∀ tr r o c event,
    exec new_room (tr ++ [SendNext]) = Some (r, o) →
    last o = Some (Delivered c event) →
    last (archive r) = Some event.

(** The history property as the specification words it: the snapshot
    followed by what was received is all that was ever published. *)
Definition snapshot_covers_history : Prop :=
  ∀ tr1 tr2 r1 o1 r o s,
    run new_room tr1 = Some (r1, o1) →
    run r1 (RecvSubscribe :: SendReply :: tr2) = Some (r, Replied s :: o) →
    uncancelled (New s) tr2 →
    bufOf r (New s) = [] → pending r (New s) = [] →
    Archive s ++ received (New s) o = published (tr1 ++ tr2).

(** The sends among the observations, in order: the channel and the event. *)
Fixpoint sends (os : list obs) : list (nat * Event) :=
  match os with
  | [] => []
  | Delivered c event :: os' => (c, event) :: sends os'
  | _ :: os' => sends os'
  end.

(** The send to channel [c], after one receive by the client of [c] when the
    queue of [c] is full in [r]. *)
Definition deliver_to (r : Room) (c : nat) : list label :=
  if decide (length (bufOf r c) < 10) then [SendNext]
  else [ClientRecv c; SendNext].

(** A fan-out over [rest] in which the clients read just as much as is
    needed for the goroutine to go on. *)
Definition fanout_schedule (r : Room) (rest : list nat) : list label :=
  flat_map (deliver_to r) rest.

(** The subscriptions that were handed out, in order. *)
Fixpoint replies (os : list obs) : list Subscription :=
  match os with
  | [] => []
  | Replied s :: os' => s :: replies os'
  | _ :: os' => replies os'
  end.

(** The transitions of a client, as opposed to those of the goroutine. *)
Definition is_client (l : label) : bool :=
  match l with
  | ClientRecv _ | ClientDrain _ => true
  | _ => false
  end.

(** The channels made so far whose subscription has been handed out. *)
Definition handed_out (r : Room) : nat :=
  match ctl r with
  | Replying _ => length (heap r) - 1
  | _ => length (heap r)
  end.

(** What the goroutine does, left alone, until it is back at its [select]:
    the remaining sends of a fan-out and the store, or the reply. *)
Definition finish (r : Room) : list label :=
  match ctl r with
  | Idle => []
  | Replying _ => [SendReply]
  | Fanout _ rest => replicate (length rest) SendNext ++ [Store]
  end.

End Actor.

(** ** The socket.io callbacks and the room registry *)

Module Server.
Import Actor.
Local Open Scope string_scope.

(** [strings.Split(s, sep)] for a one-byte separator: the pieces of [s]
    between the occurrences of [sep]; one more piece than occurrences. *)
Fixpoint strings_Split (sep : ascii) (s : string) : list string :=
  match s with
  | EmptyString => [EmptyString]
  | String a s' =>
      if decide (a = sep) then EmptyString :: strings_Split sep s'
      else match strings_Split sep s' with
           | field :: fields => String a field :: fields
           | [] => [String a EmptyString]
           end
  end.

Definition pipe : ascii := "|"%char.

(** [type Channels struct].  The three unbuffered channels are the
    rendezvous points of the goroutine that serves the room; that goroutine
    is kept next to the [userList] it belongs to. *)
Record Channels := mkChannels {
  userList : gmap string string;
  room : Room
}.

(** [var chatRooms = make(map[string]Channels)] *)
Abbreviation chatRooms := (gmap string Channels).

Definition set_room (rooms : chatRooms) (key : string) (v : Channels) (r : Room)
  : chatRooms :=
  <[key := mkChannels (userList v) r]> rooms.

(** [Subscribe]: hand the reply channel over, wait for the answer.  A result
    of [None] means that the caller is blocked: the room's goroutine is not
    at its [select], or there is no such room (a send on a nil channel). *)
Definition Subscribe (rooms : chatRooms) (key : string)
  : option (chatRooms * Subscription) :=
  match rooms !! key with
  | Some v =>
      match step (room v) RecvSubscribe with
      | Some (r1, _) =>
          match step r1 SendReply with
          | Some (r2, [Replied s]) => Some (set_room rooms key v r2, s)
          | _ => None
          end
      | None => None
      end
  | None => None
  end.

(** [chatRooms[key].publish <- event] *)
Definition publish (rooms : chatRooms) (key : string) (event : Event)
  : option chatRooms :=
  match rooms !! key with
  | Some v =>
      match step (room v) (RecvPublish event) with
      | Some (r1, _) => Some (set_room rooms key v r1)
      | None => None
      end
  | None => None
  end.

Definition Join (now : Z) (user key : string) (rooms : chatRooms) :=
  publish rooms key (NewEvent now "join" user "").

Definition Say (now : Z) (user message key : string) (rooms : chatRooms) :=
  publish rooms key (NewEvent now "message" user message).

Definition Leave (now : Z) (user key : string) (rooms : chatRooms) :=
  publish rooms key (NewEvent now "leave" user "").

(** [Subscription.Cancel]: the unsubscribe request, then the drain loop. *)
Definition Cancel (s : Subscription) (key : string) (rooms : chatRooms)
  : option chatRooms :=
  match rooms !! key with
  | Some v =>
      match step (room v) (RecvUnsubscribe (New s)) with
      | Some (r1, _) =>
          match step r1 (ClientDrain (New s)) with
          | Some (r2, _) => Some (set_room rooms key v r2)
          | None => None
          end
      | None => None
      end
  | None => None
  end.

(** [so.Emit(name, payload)] on the socket [so]. *)
Inductive payload :=
| PString (msg : string)
| PEvent (event : Event).

Record emit := mkEmit {
  socket : nat;
  name : string;
  body : payload
}.

(** How a callback ends: an index out of range, a wait on the room's
    goroutine, or a return with the registry, what was emitted and the
    subscription the connection now holds. *)
Inductive outcome :=
| Panic
| Blocked
| Done (rooms : chatRooms) (out : list emit) (s : option Subscription).

(** Lines 147-174. *)
Definition register (rooms : chatRooms) (src : string) : outcome :=
  let data := strings_Split pipe src in
  match data !! 0, data !! 1, data !! 2 with
  | Some roomID, Some userID, Some userPw =>
      match rooms !! roomID with
      | None =>
          Done (<[roomID := mkChannels (<[userID := userPw]> ∅) new_room]> rooms) [] None
      | Some v =>
          Done (<[roomID := mkChannels (<[userID := userPw]> (userList v)) (room v)]> rooms)
               [] None
      end
  | _, _, _ => Panic
  end.

Definition room_missing (roomID : string) : string :=
  "Chat room with room id " +:+ roomID +:+ " doesn't exist".
Definition user_missing : string :=
  "You're not found in the user list. Please register first".
Definition wrong_password : string := "Password is incorrect!".

(** Lines 176-240, up to the point where the callbacks of the session are
    installed. *)
Definition login (so : nat) (now : Z) (rooms : chatRooms) (src : string) : outcome :=
  let data := strings_Split pipe src in
  match data !! 0, data !! 1, data !! 2 with
  | Some roomID, Some userID, Some userPw =>
      match rooms !! roomID with
      | None => Done rooms [mkEmit so "error" (PString (room_missing roomID))] None
      | Some v =>
          match userList v !! userID with
          | None => Done rooms [mkEmit so "error" (PString user_missing)] None
          | Some pw =>
              if decide (pw = userPw) then
                match Subscribe rooms roomID with
                | Some (rooms1, s) =>
                    match Join now userID roomID rooms1 with
                    | Some rooms2 =>
                        Done rooms2
                             (map (fun event => mkEmit so "event" (PEvent event)) (Archive s))
                             (Some s)
                    | None => Blocked
                    end
                | None => Blocked
                end
              else Done rooms [mkEmit so "error" (PString wrong_password)] None
          end
      end
  | _, _, _ => Panic
  end.

(** The number of separators in a string. *)
Fixpoint count_sep (sep : ascii) (s : string) : nat :=
  match s with
  | EmptyString => 0
  | String a s' => (if decide (a = sep) then 1 else 0) + count_sep sep s'
  end.

Definition pipe_free (s : string) : Prop := count_sep pipe s = 0.

(** The payload a client sends for [register] and [login]. *)
Definition request (roomID userID userPw : string) : string :=
  roomID +:+ String pipe (userID +:+ String pipe userPw).

(** Two registries list the same rooms with the same users and passwords. *)
Definition same_users (rooms rooms' : chatRooms) : Prop :=
  ∀ k, userList <$> rooms' !! k = userList <$> rooms !! k.

(** The goroutine of room [key] and the clients of its channels make the
    transitions [tr]. *)
Definition serve (rooms : chatRooms) (key : string) (tr : list label)
  : option (chatRooms * list obs) :=
  match rooms !! key with
  | Some v =>
      match run (room v) tr with
      | Some (r, o) => Some (set_room rooms key v r, o)
      | None => None
      end
  | None => None
  end.


(** Lines 219-222, the callback for "disconnection": [Leave], then
    [Cancel].  The unsubscribe request of [Cancel] is taken only when the
    goroutine is back at its [select], so the fan-out of the leave event
    and its store come in between; no other request is interleaved here. *)
Definition disconnection (now : Z) (userID roomID : string) (s : Subscription)
    (rooms : chatRooms) : option (chatRooms * list obs) :=
  match Leave now userID roomID rooms with
  | Some rooms1 =>
      match rooms1 !! roomID with
      | Some v1 =>
          match serve rooms1 roomID (finish (room v1)) with
          | Some (rooms2, o) =>
              match Cancel s roomID rooms2 with
              | Some rooms3 => Some (rooms3, o)
              | None => None
              end
          | None => None
          end
      | None => None
      end
  | None => None
  end.

End Server.

(** ** Concrete rooms and traces *)

Module Examples.
Import Actor Server.
Local Open Scope string_scope.

Definition said (n : nat) : Event :=
  NewEvent (Z.of_nat n) "message" "alice" "hi".

(** A publish in a room without members: accepted, then stored. *)
Definition quiet_publish (n : nat) : list label := [RecvPublish (said n); Store].

(** Twenty-one publishes, numbered 0 to 20. *)
Definition trace21 : list label := flat_map quiet_publish (seq 0 21).

Definition room21 : Room :=
  mkRoom (map said (seq 1 20)) [] [] Idle.

(** One more publish accepted on top of those, not stored yet. *)
Definition trace21_pending : list label := trace21 ++ [RecvPublish (said 21)].

Definition room21_pending : Room :=
  mkRoom (map said (seq 1 20)) [] [] (Fanout (said 21) []).

(** One member, then one event accepted; the next step is the send. *)
Definition trace_delivered : list label :=
  [RecvSubscribe; SendReply; RecvPublish (said 0)].

(** One member that was sent one event. *)
Definition trace_one : list label :=
  [RecvSubscribe; SendReply; RecvPublish (said 0); SendNext; Store].

Definition room_one : Room :=
  mkRoom [said 0] [0] [mkChan 10 [said 0]] Idle.

(** What happens after a second subscribe: one more publish reaches both
    members, and the second member takes it out of its queue. *)
Definition trace_live : list label :=
  [RecvPublish (said 1); SendNext; SendNext; Store; ClientRecv 1].

Definition room_live : Room :=
  mkRoom [said 0; said 1] [0; 1]
         [mkChan 10 [said 0; said 1]; mkChan 10 []] Idle.

Definition obs_live : list obs :=
  [Delivered 0 (said 1); Delivered 1 (said 1); Received 1 (said 1)].

(** One member that does not read: ten events wait in its queue and an
    eleventh has been accepted. *)
Definition loud_publish (n : nat) : list label :=
  [RecvPublish (said n); SendNext; Store].

Definition trace_ten : list label :=
  [RecvSubscribe; SendReply] ++ flat_map loud_publish (seq 0 10).

Definition room_ten : Room :=
  mkRoom (map said (seq 0 10)) [0] [mkChan 10 (map said (seq 0 10))] Idle.

Definition trace_full : list label :=
  [RecvSubscribe; SendReply] ++ flat_map loud_publish (seq 0 10)
  ++ [RecvPublish (said 10)].

Definition room_full : Room :=
  mkRoom (map said (seq 0 10)) [0] [mkChan 10 (map said (seq 0 10))]
         (Fanout (said 10) [0]).

(** A room with two members, the first with one event waiting. *)
Definition trace_two : list label :=
  [RecvSubscribe; SendReply; RecvPublish (said 0); SendNext; Store;
   RecvSubscribe; SendReply].

Definition room_two : Room :=
  mkRoom [said 0] [0; 1] [mkChan 10 [said 0]; mkChan 10 []] Idle.

(** The registry after [register("R1|alice|pw1")] on an empty one. *)
Definition rooms_alice : gmap string Channels :=
  <["R1" := mkChannels (<["alice" := "pw1"]> ∅) new_room]> ∅.


(** A registry whose room R1 has the two members of [room_two]. *)
Definition rooms_two : gmap string Channels :=
  <["R1" := mkChannels (<["alice" := "pw1"]> ∅) room_two]> ∅.

End Examples.

(** ** Facts about the goroutine *)

Module ActorFacts.
Import Actor.

Section Lists.
Context {A : Type}.
Implicit Types l h : list A.

Lemma lastn_short n l : length l ≤ n → lastn n l = l.
Proof.
  intros Hl. unfold lastn.
  replace (length l - n) with 0 by lia. reflexivity.
Qed.

Lemma length_lastn n l : length (lastn n l) = min n (length l).
Proof. unfold lastn. rewrite length_drop. lia. Qed.

Lemma lastn_snoc_short n l x :
  length l < n → lastn n (l ++ [x]) = lastn n l ++ [x].
Proof.
  intros Hl. rewrite !lastn_short; [reflexivity | lia |].
  rewrite length_app. simpl. lia.
Qed.

Lemma tail_drop k l : tail (drop k l) = drop (S k) l.
Proof.
  revert k. induction l as [|x l IH]; intros k.
  - destruct k; reflexivity.
  - destruct k as [|k]; simpl.
    + rewrite drop_0. reflexivity.
    + apply IH.
Qed.

Lemma lastn_snoc_full n l x :
  n ≤ length l → 0 < n → lastn n (l ++ [x]) = tail (lastn n l) ++ [x].
Proof.
  intros Hl Hn. unfold lastn. rewrite tail_drop, length_app. simpl.
  replace (length l + 1 - n) with (S (length l - n)) by lia.
  rewrite drop_app_le; [reflexivity | lia].
Qed.

End Lists.

Lemma copy_archive_acc (acc a : list Event) :
  foldl (fun events e => events ++ [e]) acc a = acc ++ a.
Proof.
  revert acc. induction a as [|e a IH]; intros acc; simpl.
  - symmetry. apply app_nil_r.
  - rewrite IH, <- app_assoc. reflexivity.
Qed.

Lemma copy_archive_id a : copy_archive a = a.
Proof. unfold copy_archive. apply copy_archive_acc. Qed.

Lemma push_archive_lastn h event :
  push_archive (lastn 20 h) event = lastn 20 (h ++ [event]).
Proof.
  unfold push_archive. rewrite length_lastn.
  destruct (Nat.leb_spec 20 (min 20 (length h))) as [Hfull | Hshort].
  - rewrite lastn_snoc_full; [reflexivity | lia | lia].
  - rewrite lastn_snoc_short; [reflexivity | lia].
Qed.

Lemma length_push_archive a event :
  length a ≤ 20 → length (push_archive a event) ≤ 20.
Proof.
  intros Ha. unfold push_archive.
  destruct (Nat.leb_spec 20 (length a)); rewrite length_app; simpl.
  - destruct a; simpl in *; lia.
  - lia.
Qed.

Lemma run_app r tr1 tr2 :
  run r (tr1 ++ tr2) =
  match run r tr1 with
  | Some (r1, o1) =>
      match run r1 tr2 with
      | Some (r2, o2) => Some (r2, o1 ++ o2)
      | None => None
      end
  | None => None
  end.
Proof.
  revert r. induction tr1 as [|l tr1 IH]; intros r; simpl.
  - destruct (run r tr2) as [[r2 o2]|]; reflexivity.
  - destruct (step r l) as [[r1 o1]|]; [|reflexivity].
    rewrite IH. destruct (run r1 tr1) as [[r1' o1']|]; [|reflexivity].
    destruct (run r1' tr2) as [[r2 o2]|]; [|reflexivity].
    rewrite app_assoc. reflexivity.
Qed.

Lemma published_app tr1 tr2 :
  published (tr1 ++ tr2) = published tr1 ++ published tr2.
Proof.
  induction tr1 as [|l tr1 IH]; simpl; [reflexivity|].
  destruct l; simpl; rewrite IH; reflexivity.
Qed.

Lemma received_app c o1 o2 :
  received c (o1 ++ o2) = received c o1 ++ received c o2.
Proof.
  induction o1 as [|x o1 IH]; simpl; [reflexivity|].
  destruct x; try assumption. case_decide; simpl; rewrite IH; reflexivity.
Qed.

Lemma delivered_app c o1 o2 :
  delivered c (o1 ++ o2) = delivered c o1 ++ delivered c o2.
Proof.
  induction o1 as [|x o1 IH]; simpl; [reflexivity|].
  destruct x; try assumption. case_decide; simpl; rewrite IH; reflexivity.
Qed.

(** Inversion of one transition, case by case on the label. *)
Ltac step_inv H :=
  unfold step, set_ctl in H;
  repeat match type of H with
         | match ?x with _ => _ end = Some _ =>
             let E := fresh "E" in destruct x eqn:E; try discriminate H
         end;
  try (injection H as <- <-).

(** *** Removal from the membership list *)

Lemma remove_first_id c l : c ∉ l → remove_first c l = l.
Proof.
  induction l as [|x l IH]; simpl; [reflexivity|].
  intros Hc. apply not_elem_of_cons in Hc as [Hne Hc].
  case_decide; [congruence|]. rewrite IH by assumption. reflexivity.
Qed.

Lemma remove_first_sub c x l : x ∈ remove_first c l → x ∈ l.
Proof.
  induction l as [|y l IH]; simpl; [auto|].
  case_decide.
  - intros Hx. apply elem_of_cons. auto.
  - intros Hx. apply elem_of_cons in Hx as [-> | Hx]; apply elem_of_cons; auto.
Qed.

Lemma remove_first_other c x l : x ≠ c → x ∈ l → x ∈ remove_first c l.
Proof.
  intros Hne. induction l as [|y l IH]; simpl; [auto|].
  intros Hx. apply elem_of_cons in Hx as [-> | Hx].
  - case_decide; [congruence|]. apply elem_of_cons. auto.
  - case_decide; [assumption|]. apply elem_of_cons. auto.
Qed.

Lemma remove_first_NoDup c l : NoDup l → NoDup (remove_first c l).
Proof.
  induction 1 as [|x l Hx Hl IH]; simpl; [constructor|].
  case_decide; [assumption|].
  constructor; [|assumption].
  intros Hin. apply Hx. eapply remove_first_sub. eassumption.
Qed.

Lemma remove_first_gone c l : NoDup l → c ∉ remove_first c l.
Proof.
  induction 1 as [|x l Hx Hl IH]; simpl.
  - apply not_elem_of_nil.
  - case_decide; [subst; assumption|].
    apply not_elem_of_cons. split; [congruence | assumption].
Qed.

(** *** Well-formedness is kept by every transition *)

Lemma wf_new_room : wf new_room.
Proof.
  split; [constructor | split; [|exact I]].
  intros c Hc. apply elem_of_nil in Hc. destruct Hc.
Qed.

Lemma wf_step r l r1 o1 : wf r → step r l = Some (r1, o1) → wf r1.
Proof.
  intros (Hnd & Hlt & Hctl) Hstep. destruct l; step_inv Hstep;
    unfold wf; simpl; rewrite ?E in *; rewrite ?length_insert;
    try (split; [|split]; solve [assumption | exact I]).
  - (* RecvSubscribe *)
    split; [|split; [|exact I]].
    + apply NoDup_app. split; [assumption|]. split; [|apply NoDup_singleton].
      intros c Hc Hc'. apply list_elem_of_singleton in Hc'. subst c.
      apply Hlt in Hc. lia.
    + intros c Hc. rewrite length_app. simpl.
      apply elem_of_app in Hc as [Hc | Hc].
      * apply Hlt in Hc. lia.
      * apply list_elem_of_singleton in Hc. lia.
  - (* SendNext *)
    split; [|split]; try assumption.
    apply NoDup_cons in Hctl as [_ Hctl]. assumption.
  - (* RecvUnsubscribe *)
    split; [apply remove_first_NoDup; assumption | split; [|exact I]].
    intros x Hx. apply Hlt. eapply remove_first_sub. eassumption.
Qed.

Lemma wf_run tr : ∀ r r' o, wf r → run r tr = Some (r', o) → wf r'.
Proof.
  induction tr as [|l tr IH]; simpl; intros r r' o Hwf Hrun.
  - injection Hrun as <- _. assumption.
  - destruct (step r l) as [[r1 o1]|] eqn:Hstep; [|discriminate].
    destruct (run r1 tr) as [[r2 o2]|] eqn:Hrun'; [|discriminate].
    injection Hrun as <- _. eapply IH; [|eassumption].
    eapply wf_step; eassumption.
Qed.

Lemma reachable_wf r : reachable r → wf r.
Proof. intros (tr & o & Hrun). eapply wf_run; [apply wf_new_room | eassumption]. Qed.

(** *** The archive holds the last twenty stored events *)

Lemma archive_step r l r1 o1 h :
  archive r = lastn 20 h →
  step r l = Some (r1, o1) →
  ∃ h1, h ++ inflight r ++ published [l] = h1 ++ inflight r1 ∧
        archive r1 = lastn 20 h1.
Proof.
  intros Ha Hstep. unfold inflight.
  destruct l; step_inv Hstep; simpl; rewrite ?E;
    try (exists h; split; [rewrite ?app_nil_r; reflexivity | assumption]).
  - (* Store *)
    exists (h ++ [event]). split.
    + rewrite !app_nil_r. reflexivity.
    + rewrite Ha. apply push_archive_lastn.
Qed.

Lemma archive_run tr : ∀ r r' o h,
  archive r = lastn 20 h →
  run r tr = Some (r', o) →
  ∃ h', h ++ inflight r ++ published tr = h' ++ inflight r' ∧
        archive r' = lastn 20 h'.
Proof.
  induction tr as [|l tr IH]; intros r r' o h Ha Hrun; simpl in Hrun.
  - injection Hrun as <- _. exists h. simpl. rewrite app_nil_r. auto.
  - destruct (step r l) as [[r1 o1]|] eqn:Hstep; [|discriminate].
    destruct (run r1 tr) as [[r2 o2]|] eqn:Hrun'; [|discriminate].
    injection Hrun as <- _.
    destruct (archive_step _ _ _ _ _ Ha Hstep) as (h1 & Hh1 & Ha1).
    destruct (IH _ _ _ _ Ha1 Hrun') as (h' & Hh' & Ha').
    exists h'. split; [|assumption].
    rewrite <- Hh'. rewrite (app_assoc h1), <- Hh1.
    change (l :: tr) with ([l] ++ tr). rewrite published_app.
    rewrite <- !app_assoc. reflexivity.
Qed.

Lemma archive_reachable tr r o :
  run new_room tr = Some (r, o) →
  ∃ h, published tr = h ++ inflight r ∧ archive r = lastn 20 h.
Proof.
  intros Hrun.
  destruct (archive_run tr new_room r o [] eq_refl Hrun) as (h & Hh & Ha).
  exists h. split; [exact Hh | exact Ha].
Qed.

(** *** What a member's queue is owed *)

Lemma bufOf_insert_ne r c c' ch a s p :
  c' ≠ c →
  bufOf (mkRoom a s (<[c' := ch]> (heap r)) p) c = bufOf r c.
Proof.
  intros Hne. unfold bufOf. simpl.
  rewrite list_lookup_insert_ne by assumption. reflexivity.
Qed.

Lemma bufOf_insert_eq r c ch a s p :
  c < length (heap r) →
  bufOf (mkRoom a s (<[c := ch]> (heap r)) p) c = buf ch.
Proof.
  intros Hlt. unfold bufOf. simpl.
  rewrite list_lookup_insert_eq by assumption. reflexivity.
Qed.

Lemma bufOf_alloc r c ch a s p :
  c < length (heap r) →
  bufOf (mkRoom a s (heap r ++ [ch]) p) c = bufOf r c.
Proof.
  intros Hlt. unfold bufOf. simpl.
  rewrite lookup_app_l by assumption. reflexivity.
Qed.

Lemma account_step r l r1 o1 c :
  wf r → c ∈ subscribers r →
  step r l = Some (r1, o1) →
  l ≠ RecvUnsubscribe c → l ≠ ClientDrain c →
  received c o1 ++ bufOf r1 c ++ pending r1 c
    = bufOf r c ++ pending r c ++ published [l]
  ∧ c ∈ subscribers r1.
Proof.
  intros (Hnd & Hlt & Hctl) Hc Hstep Hun Hdr.
  pose proof (Hlt c Hc) as Hclt.
  destruct l; step_inv Hstep; unfold pending; simpl; rewrite ?E in *.
  - (* RecvSubscribe *)
    rewrite bufOf_alloc by assumption. rewrite !app_nil_r.
    split; [reflexivity | apply elem_of_app; auto].
  - (* SendReply *)
    split; [reflexivity | assumption].
  - (* RecvPublish *)
    case_decide; [|contradiction]. split; [reflexivity | assumption].
  - (* SendNext *)
    split; [|assumption]. rewrite app_nil_r.
    apply NoDup_cons in Hctl as [Hn Hl].
    destruct (decide (n = c)) as [-> | Hne].
    + rewrite bufOf_insert_eq by assumption. simpl.
      unfold bufOf.
      match goal with H : heap r !! _ = Some _ |- _ => rewrite H end.
      destruct (decide (c ∈ l)) as [Hin | _]; [contradiction|].
      destruct (decide (c ∈ c :: l)) as [_ | Hout].
      * rewrite app_nil_r. reflexivity.
      * exfalso. apply Hout, elem_of_cons. auto.
    + rewrite bufOf_insert_ne by assumption. f_equal.
      destruct (decide (c ∈ l)) as [Hin | Hnin];
        destruct (decide (c ∈ n :: l)) as [Hin' | Hnin']; try reflexivity.
      * exfalso. apply Hnin', elem_of_cons. auto.
      * exfalso. apply elem_of_cons in Hin' as [-> | Hin']; contradiction.
  - (* Store *)
    rewrite decide_False by apply not_elem_of_nil.
    split; [reflexivity | assumption].
  - (* RecvUnsubscribe *)
    split; [reflexivity|].
    apply remove_first_other; [congruence | assumption].
  - (* ClientRecv *)
    split; [|assumption]. rewrite app_nil_r.
    destruct (decide (c0 = c)) as [-> | Hne].
    + rewrite bufOf_insert_eq by assumption. simpl.
      unfold bufOf.
      match goal with H : heap r !! _ = Some _ |- _ => rewrite H end.
      reflexivity.
    + rewrite bufOf_insert_ne by assumption. reflexivity.
  - (* ClientDrain *)
    split; [|assumption]. rewrite app_nil_r.
    rewrite bufOf_insert_ne by congruence. reflexivity.
  - (* ClientDrain, no such channel *)
    split; [|assumption]. rewrite app_nil_r. reflexivity.
Qed.

Lemma account_run tr c : ∀ r r' o,
  wf r → c ∈ subscribers r →
  run r tr = Some (r', o) →
  uncancelled c tr →
  received c o ++ bufOf r' c ++ pending r' c
    = bufOf r c ++ pending r c ++ published tr.
Proof.
  induction tr as [|l tr IH]; intros r r' o Hwf Hc Hrun Hun; simpl in Hrun.
  - injection Hrun as <- <-. simpl. rewrite app_nil_r. reflexivity.
  - destruct (step r l) as [[r1 o1]|] eqn:Hstep; [|discriminate].
    destruct (run r1 tr) as [[r2 o2]|] eqn:Hrun'; [|discriminate].
    injection Hrun as <- <-.
    destruct (Hun l) as [Hl1 Hl2]; [apply elem_of_cons; auto|].
    destruct (account_step _ _ _ _ _ Hwf Hc Hstep Hl1 Hl2) as [Heq Hc1].
    assert (Hun' : uncancelled c tr).
    { intros l' Hl'. apply Hun. apply elem_of_cons. auto. }
    pose proof (IH _ _ _ (wf_step _ _ _ _ Hwf Hstep) Hc1 Hrun' Hun') as Heq'.
    rewrite received_app, <- app_assoc, Heq'.
    rewrite !app_assoc. rewrite <- (app_assoc (received c o1)), Heq.
    change (l :: tr) with ([l] ++ tr). rewrite published_app.
    rewrite !app_assoc. reflexivity.
Qed.

(** *** A complete fan-out *)

Lemma step_send r event c rest ch :
  ctl r = Fanout event (c :: rest) →
  heap r !! c = Some ch →
  length (buf ch) < cap ch →
  step r SendNext =
    Some (mkRoom (archive r) (subscribers r)
                 (<[c := mkChan (cap ch) (buf ch ++ [event])]> (heap r))
                 (Fanout event rest),
          [Delivered c event]).
Proof.
  intros Hctl Hch Hroom. unfold step. rewrite Hctl, Hch.
  rewrite decide_True by assumption. reflexivity.
Qed.

Lemma fanout_run rest : ∀ r event,
  ctl r = Fanout event rest →
  NoDup rest →
  (∀ c, c ∈ rest → ∃ ch, heap r !! c = Some ch ∧ length (buf ch) < cap ch) →
  ∃ r', run r (replicate (length rest) SendNext)
          = Some (r', map (fun c => Delivered c event) rest) ∧
        ctl r' = Fanout event [] ∧
        archive r' = archive r ∧
        subscribers r' = subscribers r ∧
        ∀ c, bufOf r' c = bufOf r c ++ (if decide (c ∈ rest) then [event] else []).
Proof.
  induction rest as [|c rest IH]; intros r event Hctl Hnd Hroom.
  - exists r. simpl. repeat (split; [done|]).
    intros c. rewrite app_nil_r. reflexivity.
  - apply NoDup_cons in Hnd as [Hc Hnd].
    destruct (Hroom c) as (ch & Hch & Hlen); [apply elem_of_cons; auto|].
    pose proof (step_send _ _ _ _ _ Hctl Hch Hlen) as Hstep.
    set (r1 := mkRoom (archive r) (subscribers r)
                 (<[c := mkChan (cap ch) (buf ch ++ [event])]> (heap r))
                 (Fanout event rest)) in *.
    destruct (IH r1 event eq_refl Hnd) as (r' & Hrun & Hctl' & Ha & Hs & Hb).
    { intros c' Hc'. assert (c ≠ c') by (intros ->; contradiction).
      destruct (Hroom c') as (ch' & Hch' & Hlen'); [apply elem_of_cons; auto|].
      exists ch'. split; [|assumption]. simpl.
      rewrite list_lookup_insert_ne by assumption. assumption. }
    exists r'. split.
    { change (run r (SendNext :: replicate (length rest) SendNext)
              = Some (r', Delivered c event :: map (fun c => Delivered c event) rest)).
      cbn [run]. rewrite Hstep, Hrun. reflexivity. }
    repeat (split; [done|]).
    intros x. rewrite Hb.
    assert (Hclt : c < length (heap r)) by (eapply lookup_lt_Some; eassumption).
    destruct (decide (x = c)) as [-> | Hne].
    + unfold r1. rewrite bufOf_insert_eq by assumption. simpl.
      rewrite decide_False by assumption.
      rewrite decide_True by (apply elem_of_cons; auto).
      unfold bufOf. rewrite Hch, app_nil_r. reflexivity.
    + unfold r1. rewrite bufOf_insert_ne by congruence. f_equal.
      destruct (decide (x ∈ rest)) as [Hin | Hnin];
        destruct (decide (x ∈ c :: rest)) as [Hin' | Hnin']; try reflexivity.
      * exfalso. apply Hnin', elem_of_cons. auto.
      * exfalso. apply elem_of_cons in Hin' as [-> | Hin']; contradiction.
Qed.

(** *** A channel that was removed stays silent *)

Lemma retired_step c r l r1 o1 :
  retired c r → step r l = Some (r1, o1) →
  retired c r1 ∧ delivered c o1 = [].
Proof.
  intros (Hlt & Hout & Hctl) Hstep.
  destruct l; step_inv Hstep; unfold retired; simpl;
    rewrite ?E in *; rewrite ?length_insert;
    try (split; [split; [|split]|]; solve [assumption | exact I | reflexivity]).
  - (* RecvSubscribe *)
    split; [split; [|split; [|exact I]]|reflexivity].
    + rewrite length_app. simpl. lia.
    + intros Hin. apply elem_of_app in Hin as [Hin | Hin]; [contradiction|].
      apply list_elem_of_singleton in Hin. lia.
  - (* SendNext *)
    apply not_elem_of_cons in Hctl as [Hne Hctl].
    rewrite decide_False by congruence.
    split; [split; [|split]|]; solve [assumption | reflexivity].
  - (* RecvUnsubscribe *)
    split; [split; [|split; [|exact I]]|reflexivity]; [assumption|].
    intros Hin. apply Hout. eapply remove_first_sub. eassumption.
Qed.

Lemma retired_run c tr : ∀ r r' o,
  retired c r → run r tr = Some (r', o) →
  retired c r' ∧ delivered c o = [].
Proof.
  induction tr as [|l tr IH]; intros r r' o Hret Hrun; simpl in Hrun.
  - injection Hrun as <- <-. split; [assumption | reflexivity].
  - destruct (step r l) as [[r1 o1]|] eqn:Hstep; [|discriminate].
    destruct (run r1 tr) as [[r2 o2]|] eqn:Hrun'; [|discriminate].
    injection Hrun as <- <-.
    destruct (retired_step _ _ _ _ _ Hret Hstep) as [Hret1 Hd1].
    destruct (IH _ _ _ Hret1 Hrun') as [Hret2 Hd2].
    split; [assumption|]. rewrite delivered_app, Hd1, Hd2. reflexivity.
Qed.

(** *** Cancelling *)

Lemma drain_nil q : drain q = [].
Proof. induction q; simpl; auto. Qed.

Lemma step_unsubscribe_absent r c :
  ctl r = Idle → c ∉ subscribers r →
  step r (RecvUnsubscribe c) = Some (r, []).
Proof.
  intros Hctl Hc. unfold step. rewrite Hctl.
  rewrite remove_first_id by assumption.
  destruct r; simpl in *; subst; reflexivity.
Qed.

Lemma cancel_twice r c r1 o1 :
  NoDup (subscribers r) →
  run r [RecvUnsubscribe c; ClientDrain c] = Some (r1, o1) →
  run r1 [RecvUnsubscribe c; ClientDrain c] = Some (r1, []).
Proof.
  intros Hnd Hrun. cbn [run] in Hrun.
  destruct (step r (RecvUnsubscribe c)) as [[r' o']|] eqn:H1; [|discriminate].
  destruct (step r' (ClientDrain c)) as [[r'' o'']|] eqn:H2; [|discriminate].
  injection Hrun as <- <-.
  step_inv H1. unfold step in H2. simpl in H2.
  assert (Hgone := remove_first_gone c _ Hnd).
  destruct (heap r !! c) as [ch|] eqn:Hch; injection H2 as <- <-.
  - cbn [run]. unfold step; simpl. rewrite remove_first_id by assumption. simpl.
    rewrite list_lookup_insert_eq by (eapply lookup_lt_Some; eassumption).
    simpl. rewrite list_insert_insert_eq, !drain_nil. reflexivity.
  - cbn [run]. unfold step; simpl. rewrite remove_first_id by assumption. simpl.
    rewrite Hch. reflexivity.
Qed.

(** *** Runs of a new room, one transition at a time *)

Lemma run_snoc_inv r tr l r' o' :
  run r (tr ++ [l]) = Some (r', o') →
  ∃ r1 o1 o2, run r tr = Some (r1, o1) ∧ step r1 l = Some (r', o2) ∧ o' = o1 ++ o2.
Proof.
  rewrite run_app. intros Hrun.
  destruct (run r tr) as [[r1 o1]|] eqn:H1; [|discriminate].
  cbn [run] in Hrun.
  destruct (step r1 l) as [[r2 o2]|] eqn:H2; [|discriminate].
  injection Hrun as <- <-. exists r1, o1, o2. rewrite app_nil_r.
  split; [|split]; done.
Qed.

Lemma run_new_room_ind (P : list label → Room → list obs → Prop) :
  P [] new_room [] →
  (∀ tr r o l r1 o1,
     run new_room tr = Some (r, o) → P tr r o →
     step r l = Some (r1, o1) → P (tr ++ [l]) r1 (o ++ o1)) →
  ∀ tr r o, run new_room tr = Some (r, o) → P tr r o.
Proof.
  intros Hinit Hstep tr. induction tr as [|l tr IH] using rev_ind; intros r o Hrun.
  - injection Hrun as <- <-. exact Hinit.
  - destruct (run_snoc_inv _ _ _ _ _ Hrun) as (r1 & o1 & o2 & Hrun1 & Hs & ->).
    eapply Hstep; eauto.
Qed.

(** The bound on the queues, for all channels at once. *)
Lemma queues_bounded r :
  reachable r →
  Forall (fun ch => cap ch = 10 ∧ length (buf ch) ≤ 10) (heap r).
Proof.
  intros (tr & o & Hrun). revert tr r o Hrun.
  apply (run_new_room_ind (fun _ r _ =>
           Forall (fun ch => cap ch = 10 ∧ length (buf ch) ≤ 10) (heap r))).
  - constructor.
  - intros tr r o l r1 o1 _ IH Hstep.
    destruct l; step_inv Hstep; simpl; try assumption.
    + apply Forall_app. split; [assumption|].
      constructor; [simpl; split; [reflexivity | lia] | constructor].
    + apply Forall_insert; [assumption|]. simpl.
      match goal with H : heap r !! _ = Some ?x |- _ =>
        destruct (Forall_lookup_1 _ _ _ _ IH H) as [Hcap Hlen] end.
      rewrite length_app. simpl. split; [assumption | lia].
    + apply Forall_insert; [assumption|]. simpl.
      match goal with H : heap r !! _ = Some ?x |- _ =>
        destruct (Forall_lookup_1 _ _ _ _ IH H) as [Hcap Hlen] end.
      simpl in *. split; [assumption | lia].
    + apply Forall_insert; [assumption|]. simpl.
      match goal with H : heap r !! _ = Some ?x |- _ =>
        destruct (Forall_lookup_1 _ _ _ _ IH H) as [Hcap Hlen] end.
      rewrite drain_nil. simpl. split; [assumption | lia].
Qed.

(** *** What goes into a queue comes out of it *)

(** A queue hands out what was put into it, in the same order. *)
Lemma fifo_step r l r1 o1 c :
  step r l = Some (r1, o1) →
  l ≠ ClientDrain c →
  received c o1 ++ bufOf r1 c = bufOf r c ++ delivered c o1.
Proof.
  intros Hstep Hdr.
  destruct l; step_inv Hstep; simpl; rewrite ?app_nil_r; try reflexivity.
  - (* RecvSubscribe *)
    unfold bufOf. simpl.
    destruct (decide (c < length (heap r))) as [Hlt | Hge].
    + rewrite lookup_app_l by assumption. reflexivity.
    + rewrite (lookup_ge_None_2 (heap r)) by lia.
      rewrite lookup_app_r by lia.
      destruct (c - length (heap r)) as [|k]; reflexivity.
  - (* SendNext *)
    assert (Hn : n < length (heap r)) by (eapply lookup_lt_Some; eassumption).
    destruct (decide (n = c)) as [-> | Hne].
    + rewrite bufOf_insert_eq by assumption. simpl.
      unfold bufOf.
      match goal with H : heap r !! _ = Some _ |- _ => rewrite H end.
      reflexivity.
    + rewrite bufOf_insert_ne by assumption. rewrite app_nil_r. reflexivity.
  - (* ClientRecv *)
    assert (Hn : c0 < length (heap r)) by (eapply lookup_lt_Some; eassumption).
    destruct (decide (c0 = c)) as [-> | Hne].
    + rewrite bufOf_insert_eq by assumption. simpl.
      unfold bufOf.
      match goal with H : heap r !! _ = Some _ |- _ => rewrite H end.
      reflexivity.
    + rewrite bufOf_insert_ne by assumption. reflexivity.
  - (* ClientDrain *)
    rewrite bufOf_insert_ne by congruence. reflexivity.
Qed.

Lemma fifo_run tr c : ∀ r r' o,
  run r tr = Some (r', o) →
  ClientDrain c ∉ tr →
  received c o ++ bufOf r' c = bufOf r c ++ delivered c o.
Proof.
  induction tr as [|l tr IH]; intros r r' o Hrun Hdr; cbn [run] in Hrun.
  - injection Hrun as <- <-. simpl. rewrite app_nil_r. reflexivity.
  - destruct (step r l) as [[r1 o1]|] eqn:Hstep; [|discriminate].
    destruct (run r1 tr) as [[r2 o2]|] eqn:Hrun'; [|discriminate].
    injection Hrun as <- <-.
    apply not_elem_of_cons in Hdr as [Hl Hdr].
    pose proof (fifo_step _ _ _ _ c Hstep (not_eq_sym Hl)) as H1.
    pose proof (IH _ _ _ Hrun' Hdr) as H2.
    rewrite received_app, delivered_app, <- app_assoc, H2.
    rewrite !app_assoc, H1. reflexivity.
Qed.

(** The sends of one event to distinct channels, seen from one channel. *)
Lemma delivered_of_sends o : ∀ l event c,
  NoDup l →
  sends o = map (fun c => (c, event)) l →
  delivered c o = if decide (c ∈ l) then [event] else [].
Proof.
  induction o as [|x o IH]; intros l event c Hnd Hs.
  - destruct l; [|discriminate Hs]. reflexivity.
  - destruct x as [s|c' e|c' e]; simpl in Hs |- *; try (eapply IH; eassumption).
    destruct l as [|c0 l]; [discriminate Hs|]. simpl in Hs.
    injection Hs as -> -> Hs. apply NoDup_cons in Hnd as [Hc0 Hnd].
    rewrite (IH l event c Hnd Hs).
    destruct (decide (c0 = c)) as [-> | Hne].
    + rewrite decide_False by assumption.
      rewrite decide_True by (apply elem_of_cons; auto). reflexivity.
    + destruct (decide (c ∈ l)) as [Hin | Hnin];
        destruct (decide (c ∈ c0 :: l)) as [Hin' | Hnin']; try reflexivity.
      * exfalso. apply Hnin', elem_of_cons. auto.
      * exfalso. apply elem_of_cons in Hin' as [-> | Hin']; contradiction.
Qed.

(** *** A fan-out, whatever the clients do meanwhile *)

Lemma sends_app o1 o2 : sends (o1 ++ o2) = sends o1 ++ sends o2.
Proof.
  induction o1 as [|x o1 IH]; simpl; [reflexivity|].
  destruct x; simpl; rewrite ?IH; reflexivity.
Qed.

(** As long as nothing is stored, the goroutine is in the fan-out it
    started: it has served a front part of the list, in order. *)
Lemma fanout_prefix tr : ∀ r r' o event rest,
  ctl r = Fanout event rest →
  run r tr = Some (r', o) →
  Store ∉ tr →
  ∃ k, k ≤ length rest
       ∧ sends o = map (fun c => (c, event)) (take k rest)
       ∧ ctl r' = Fanout event (drop k rest)
       ∧ archive r' = archive r
       ∧ subscribers r' = subscribers r.
Proof.
  induction tr as [|l tr IH]; intros r r' o event rest Hctl Hrun Hst;
    cbn [run] in Hrun.
  - injection Hrun as <- <-. exists 0. simpl. rewrite drop_0.
    split; [lia|]. auto.
  - destruct (step r l) as [[r1 o1]|] eqn:Hstep; [|discriminate].
    destruct (run r1 tr) as [[r2 o2]|] eqn:Hrun'; [|discriminate].
    injection Hrun as <- <-.
    apply not_elem_of_cons in Hst as [Hl Hst].
    unfold step in Hstep. rewrite Hctl in Hstep.
    destruct l; try discriminate Hstep; try congruence.
    + (* SendNext *)
      destruct rest as [|c rest]; [discriminate Hstep|].
      destruct (heap r !! c) as [ch|]; [|discriminate Hstep].
      case_decide; [|discriminate Hstep]. injection Hstep as <- <-.
      destruct ((fun H => IH _ _ _ event rest H Hrun' Hst) eq_refl)
        as (k & Hk & Hs & Hc & Ha & Hsub).
      exists (S k). simpl. split; [lia|]. rewrite Hs. auto.
    + (* ClientRecv *)
      destruct (heap r !! c) as [[cp [|e q]]|]; try discriminate Hstep.
      injection Hstep as <- <-.
      destruct ((fun H => IH _ _ _ event rest H Hrun' Hst) eq_refl)
        as (k & Hk & Hs & Hc & Ha & Hsub).
      exists k. simpl. auto.
    + (* ClientDrain *)
      destruct (heap r !! c) as [ch|]; injection Hstep as <- <-.
      * destruct ((fun H => IH _ _ _ event rest H Hrun' Hst) eq_refl)
          as (k & Hk & Hs & Hc & Ha & Hsub).
        exists k. simpl. auto.
      * destruct (IH _ _ _ event rest Hctl Hrun' Hst)
          as (k & Hk & Hs & Hc & Ha & Hsub).
        exists k. simpl. auto.
Qed.

Lemma fanout_schedule_labels r0 rest l :
  l ∈ fanout_schedule r0 rest → l = SendNext ∨ ∃ c, l = ClientRecv c.
Proof.
  unfold fanout_schedule. induction rest as [|c rest IH]; simpl.
  - intros Hin. apply elem_of_nil in Hin. destruct Hin.
  - intros Hin. apply elem_of_app in Hin as [Hin | Hin]; [|auto].
    unfold deliver_to in Hin. case_decide;
      repeat (apply elem_of_cons in Hin as [-> | Hin]; [eauto|]);
      apply elem_of_nil in Hin; destruct Hin.
Qed.

Lemma fanout_schedule_no_store r0 rest : Store ∉ fanout_schedule r0 rest.
Proof.
  intros Hin. apply fanout_schedule_labels in Hin as [H | [c H]]; discriminate H.
Qed.

Lemma fanout_schedule_no_drain r0 rest c : ClientDrain c ∉ fanout_schedule r0 rest.
Proof.
  intros Hin. apply fanout_schedule_labels in Hin as [H | [c' H]]; discriminate H.
Qed.

(** The schedule in which the client of every full queue takes one event
    out just before the send serves the whole list. *)
Lemma fanout_schedule_runs r0 rest : ∀ r event,
  ctl r = Fanout event rest →
  NoDup rest →
  (∀ c, c ∈ rest →
     ∃ ch, heap r !! c = Some ch ∧ cap ch = 10 ∧ length (buf ch) ≤ 10
           ∧ bufOf r0 c = buf ch) →
  ∃ r' o, run r (fanout_schedule r0 rest) = Some (r', o)
          ∧ sends o = map (fun c => (c, event)) rest
          ∧ ctl r' = Fanout event []
          ∧ archive r' = archive r
          ∧ subscribers r' = subscribers r.
Proof.
  induction rest as [|c rest IH]; intros r event Hctl Hnd Hall.
  - exists r, []. simpl. auto.
  - apply NoDup_cons in Hnd as [Hc Hnd].
    destruct (Hall c) as (ch & Hch & Hcap & Hlen & Hbuf); [apply elem_of_cons; auto|].
    assert (Hclt : c < length (heap r)) by (eapply lookup_lt_Some; eassumption).
    assert (Hrest : ∀ h p, (∀ x, x ≠ c → h !! x = heap r !! x) →
              ∀ x, x ∈ rest →
                ∃ ch', heap (mkRoom (archive r) (subscribers r) h p) !! x = Some ch'
                       ∧ cap ch' = 10 ∧ length (buf ch') ≤ 10 ∧ bufOf r0 x = buf ch').
    { intros h p Hh x Hx. assert (x ≠ c) by (intros ->; contradiction).
      destruct (Hall x) as (ch' & Hch' & H'); [apply elem_of_cons; auto|].
      exists ch'. simpl. rewrite Hh by assumption. auto. }
    unfold fanout_schedule. cbn [flat_map]. fold (fanout_schedule r0 rest).
    rewrite run_app. unfold deliver_to. rewrite Hbuf.
    destruct (decide (length (buf ch) < 10)) as [Hroom | Hfull].
    + cbn [run]. rewrite (step_send _ _ _ _ _ Hctl Hch) by lia.
      edestruct (IH (mkRoom (archive r) (subscribers r)
                       (<[c := mkChan (cap ch) (buf ch ++ [event])]> (heap r))
                       (Fanout event rest)) event eq_refl Hnd)
        as (r' & o & Hrun & Hs & Hc' & Ha & Hsub).
      { apply Hrest. intros x Hx. apply list_lookup_insert_ne. congruence. }
      exists r', (Delivered c event :: o). rewrite Hrun. simpl. rewrite Hs. auto.
    + destruct ch as [cp [|e q]]; simpl in Hcap, Hlen, Hfull, Hbuf; [lia|].
      subst cp.
      set (r1 := mkRoom (archive r) (subscribers r)
                        (<[c := mkChan 10 q]> (heap r)) (ctl r)).
      assert (Hrecv : step r (ClientRecv c) = Some (r1, [Received c e])).
      { unfold step. rewrite Hch. reflexivity. }
      assert (Hch1 : heap r1 !! c = Some (mkChan 10 q)).
      { apply list_lookup_insert_eq. exact Hclt. }
      pose proof (step_send r1 event c rest (mkChan 10 q) Hctl Hch1
                    ltac:(simpl; lia)) as Hsend.
      cbn [run]. rewrite Hrecv. cbv beta iota. rewrite Hsend. cbv beta iota.
      edestruct (IH (mkRoom (archive r1) (subscribers r1)
                       (<[c := mkChan (cap (mkChan 10 q)) (buf (mkChan 10 q) ++ [event])]>
                          (heap r1))
                       (Fanout event rest)) event eq_refl Hnd)
        as (r' & o & Hrun & Hs & Hc' & Ha & Hsub).
      { apply Hrest. intros x Hx. unfold r1. cbn [heap].
        rewrite !list_lookup_insert_ne by congruence. reflexivity. }
      exists r', (Received c e :: Delivered c event :: o).
      rewrite Hrun. simpl. rewrite Hs. auto.
Qed.

(** *** The order of the member list *)

Lemma remove_first_sorted c l :
  StronglySorted lt l → StronglySorted lt (remove_first c l).
Proof.
  induction l as [|x l IH]; simpl; [auto|].
  intros Hs. apply StronglySorted_cons in Hs as [Hx Hl].
  case_decide; [exact Hl|].
  apply StronglySorted_cons. split; [|apply IH; exact Hl].
  apply Forall_forall. intros y Hy.
  apply (proj1 (Forall_forall _ _) Hx). eapply remove_first_sub. exact Hy.
Qed.

(** Channels are numbered as they are made, and the member list holds them
    in increasing order: walking it from the front meets the members in the
    order in which they subscribed. *)
Lemma members_in_subscription_order r :
  reachable r → StronglySorted lt (subscribers r).
Proof.
  intros (tr & o & Hrun). revert tr r o Hrun.
  apply (run_new_room_ind (fun _ r _ => StronglySorted lt (subscribers r))).
  - constructor.
  - intros tr r o l r1 o1 Hrun IH Hstep.
    assert (Hwf : wf r) by (apply reachable_wf; do 2 eexists; exact Hrun).
    destruct Hwf as (_ & Hlt & _).
    destruct l; step_inv Hstep; simpl; try exact IH.
    + apply StronglySorted_app_2; [|exact IH|repeat constructor].
      intros x1 x2 H1 H2. apply list_elem_of_singleton in H2. subst x2.
      apply Hlt. exact H1.
    + apply remove_first_sorted. exact IH.
Qed.

End ActorFacts.

(** ** The properties of the room *)

Module ActorClaims.
Import Actor Examples ActorFacts.

Lemma trace21_runs : run new_room trace21 = Some (room21, []).
Proof. vm_compute. reflexivity. Qed.

(** A member joins and speaks; the snapshot of the next subscriber holds
    the join event and then the message. *)
Example snapshot_of_second_subscriber :
  let joined := NewEvent 100 "join" "alice" "" in
  let hi := NewEvent 101 "message" "alice" "hi" in
  snd <$> run new_room
            [RecvSubscribe; SendReply; RecvPublish joined; SendNext; Store;
             RecvPublish hi; SendNext; Store; RecvSubscribe; SendReply]
  = Some [Replied (mkSubscription [] 0); Delivered 0 joined; Delivered 0 hi;
          Replied (mkSubscription [joined; hi] 1)].
Proof. vm_compute. reflexivity. Qed.

(** A send to a member whose queue holds ten events is no transition. *)
Example full_queue_blocks :
  step (mkRoom [] [0] [mkChan 10 (map said (seq 0 10))] (Fanout (said 10) [0]))
       SendNext = None.
Proof. vm_compute. reflexivity. Qed.

(** Running a subscribe from an idle room, step by step. *)
Lemma run_subscribe r1 tr2 r o s :
  run r1 (RecvSubscribe :: SendReply :: tr2) = Some (r, Replied s :: o) →
  ctl r1 = Idle ∧
  s = mkSubscription (archive r1) (length (heap r1)) ∧
  run (mkRoom (archive r1) (subscribers r1 ++ [length (heap r1)])
              (heap r1 ++ [mkChan 10 []]) Idle) tr2 = Some (r, o).
Proof.
  intros Hrun. cbn [run] in Hrun.
  destruct (step r1 RecvSubscribe) as [[r2 o2]|] eqn:H1; [|discriminate].
  step_inv H1. unfold step, set_ctl in Hrun. simpl in Hrun.
  match type of Hrun with
  | context [run ?x tr2] =>
      destruct (run x tr2) as [[r3 o3]|] eqn:H3; [|discriminate]
  end.
  injection Hrun as <- <- <-. rewrite copy_archive_id. auto.
Qed.

(** C1, in the form that holds of the code.  The snapshot of a
    subscription, followed by what its channel has handed out, what still
    waits in it and what the running fan-out still owes it, is the last
    twenty events published before the subscribe followed by every event
    published after it, as long as the subscription is not cancelled.  Once
    the channel is read empty this is the snapshot followed by the received
    events; it is the whole history of the room when at most twenty events
    came before. *)
Theorem snapshot_then_live_is_recent_history tr1 tr2 r1 o1 r o s :
  run new_room tr1 = Some (r1, o1) →
  run r1 (RecvSubscribe :: SendReply :: tr2) = Some (r, Replied s :: o) →
  uncancelled (New s) tr2 →
  Archive s ++ received (New s) o ++ bufOf r (New s) ++ pending r (New s)
    = lastn 20 (published tr1) ++ published tr2
  ∧ (bufOf r (New s) = [] → pending r (New s) = [] →
     Archive s ++ received (New s) o = lastn 20 (published tr1) ++ published tr2)
  ∧ (length (published tr1) ≤ 20 →
     lastn 20 (published tr1) ++ published tr2
       = published (tr1 ++ RecvSubscribe :: SendReply :: tr2)).
Proof.
  intros Hrun1 Hrun Hun.
  destruct (run_subscribe _ _ _ _ _ Hrun) as (Hidle & -> & Hrun3).
  destruct (archive_reachable _ _ _ Hrun1) as (h & Hh & Ha).
  unfold inflight in Hh. rewrite Hidle, app_nil_r in Hh. subst h.
  simpl in Hun |- *.
  set (c := length (heap r1)) in *.
  set (r3 := mkRoom _ _ _ _) in Hrun3.
  assert (Hwf1 : wf r1) by (apply reachable_wf; do 2 eexists; eassumption).
  assert (Hwf3 : wf r3).
  { destruct Hwf1 as (Hnd & Hlt & _). split; [|split; [|exact I]]; simpl.
    - apply NoDup_app. split; [assumption|]. split; [|apply NoDup_singleton].
      intros x Hx Hx'. apply list_elem_of_singleton in Hx'. subst x.
      apply Hlt in Hx. lia.
    - intros x Hx. rewrite length_app. simpl.
      apply elem_of_app in Hx as [Hx | Hx].
      + apply Hlt in Hx. lia.
      + apply list_elem_of_singleton in Hx. lia. }
  assert (Hc3 : c ∈ subscribers r3).
  { simpl. apply elem_of_app. right. apply list_elem_of_singleton. reflexivity. }
  pose proof (account_run _ _ _ _ _ Hwf3 Hc3 Hrun3 Hun) as Hacc.
  assert (Hb3 : bufOf r3 c = []).
  { unfold bufOf, r3, c. simpl. rewrite lookup_app_r by lia.
    rewrite Nat.sub_diag. reflexivity. }
  unfold pending in Hacc at 2. rewrite Hb3 in Hacc. simpl in Hacc.
  assert (Hall : archive r1 ++ received c o ++ bufOf r c ++ pending r c
                 = lastn 20 (published tr1) ++ published tr2).
  { rewrite Hacc, Ha. reflexivity. }
  split; [exact Hall|]. split.
  - intros Hb Hp. rewrite Hb, Hp, !app_nil_r in Hall. exact Hall.
  - intros Hlen. rewrite lastn_short by assumption.
    rewrite published_app. reflexivity.
Qed.

Lemma snapshot_then_live_is_recent_history_witness :
  [said 0] ++ received 1 obs_live ++ bufOf room_live 1 ++ pending room_live 1
    = lastn 20 (published trace_one) ++ published trace_live
  ∧ (bufOf room_live 1 = [] → pending room_live 1 = [] →
     [said 0] ++ received 1 obs_live
       = lastn 20 (published trace_one) ++ published trace_live)
  ∧ (length (published trace_one) ≤ 20 →
     lastn 20 (published trace_one) ++ published trace_live
       = published (trace_one ++ RecvSubscribe :: SendReply :: trace_live)).
Proof.
  apply (snapshot_then_live_is_recent_history
           trace_one trace_live room_one
           [Replied (mkSubscription [] 0); Delivered 0 (said 0)]
           room_live obs_live (mkSubscription [said 0] 1)).
  - vm_compute. reflexivity.
  - vm_compute. reflexivity.
  - intros l Hl. unfold trace_live in Hl.
    repeat (apply elem_of_cons in Hl as [-> | Hl]; [split; discriminate|]).
    apply elem_of_nil in Hl. destruct Hl.
Defined.

(** C1 as the specification states it fails: after twenty-one publishes a
    subscriber's snapshot holds twenty events, and nothing it receives later
    brings the first one back. *)
Lemma snapshot_misses_evicted_events : ¬ snapshot_covers_history.
Proof.
  intros H.
  specialize (H trace21 [] room21 []
                (mkRoom (archive room21) [0] [mkChan 10 []] Idle) []
                (mkSubscription (archive room21) 0)).
  assert (Hfalse : Archive (mkSubscription (archive room21) 0) ++ received 0 []
                   = published (trace21 ++ [])).
  { apply H.
    - exact trace21_runs.
    - vm_compute. reflexivity.
    - intros l Hl. apply elem_of_nil in Hl. destruct Hl.
    - reflexivity.
    - reflexivity. }
  apply (f_equal length) in Hfalse. vm_compute in Hfalse. discriminate.
Qed.

(** C2.  In every state the goroutine can reach, by publishes mixed with
    any other requests, the archive holds at most twenty events; it is an
    unbroken tail of the events stored so far, in their order and with
    repetitions kept; and storing into an archive of twenty drops exactly
    its oldest element. *)
Theorem archive_bounded tr r o :
  run new_room tr = Some (r, o) →
  length (archive r) ≤ 20
  ∧ (∃ h, published tr = h ++ inflight r ∧ archive r `suffix_of` h)
  ∧ (∀ event, ctl r = Fanout event [] →
       ∃ r', step r Store = Some (r', [])
             ∧ archive r' = (if decide (length (archive r) = 20)
                             then tail (archive r) else archive r) ++ [event]
             ∧ length (archive r') ≤ 20).
Proof.
  intros Hrun.
  destruct (archive_reachable _ _ _ Hrun) as (h & Hh & Ha).
  assert (Hlen : length (archive r) ≤ 20).
  { rewrite Ha, length_lastn. lia. }
  split; [exact Hlen|]. split.
  - exists h. split; [exact Hh|]. rewrite Ha. apply suffix_drop.
  - intros event Hctl. eexists. unfold step. rewrite Hctl.
    split; [reflexivity|]. simpl. split.
    + unfold push_archive. case_decide as Hfull.
      * rewrite Hfull. reflexivity.
      * destruct (Nat.leb_spec 20 (length (archive r))); [lia | reflexivity].
    + apply length_push_archive. exact Hlen.
Qed.

Lemma archive_bounded_witness :
  length (archive room21_pending) ≤ 20
  ∧ (∃ h, published trace21_pending = h ++ inflight room21_pending
          ∧ archive room21_pending `suffix_of` h)
  ∧ (∀ event, ctl room21_pending = Fanout event [] →
       ∃ r', step room21_pending Store = Some (r', [])
             ∧ archive r' = (if decide (length (archive room21_pending) = 20)
                             then tail (archive room21_pending)
                             else archive room21_pending) ++ [event]
             ∧ length (archive r') ≤ 20).
Proof.
  apply (archive_bounded trace21_pending room21_pending []).
  vm_compute. reflexivity.
Defined.

(** C3.  Once twenty or more publishes have been carried out, the archive
    is exactly the last twenty published events, in publish order. *)
Theorem archive_is_last_twenty tr r o :
  run new_room tr = Some (r, o) →
  ctl r = Idle →
  20 ≤ length (published tr) →
  archive r = lastn 20 (published tr) ∧ length (archive r) = 20.
Proof.
  intros Hrun Hidle Hlen.
  destruct (archive_reachable _ _ _ Hrun) as (h & Hh & Ha).
  unfold inflight in Hh. rewrite Hidle, app_nil_r in Hh. subst h.
  split; [exact Ha|]. rewrite Ha, length_lastn. lia.
Qed.

Lemma archive_is_last_twenty_witness :
  archive room21 = lastn 20 (published trace21) ∧ length (archive room21) = 20.
Proof.
  apply (archive_is_last_twenty trace21 room21 []).
  - vm_compute. reflexivity.
  - reflexivity.
  - vm_compute. lia.
Defined.

(** C4, in the form that holds of the code.  Once the goroutine has
    taken a publish request, it first puts the event into the queue of every
    member, walking its member list from the front, and then appends the
    event to the archive, dropping the oldest element of a full one.
    Whatever the clients do in between, until the store the sends made are
    those to a front part of the member list, in its order, and the archive
    is untouched; the store is possible exactly when the whole list has been
    served.  And the whole list does get served: a send that finds a full
    queue goes through once the client of that queue has taken one event
    out. *)
Theorem publish_delivers_then_stores r0 event r o0 :
  reachable r0 →
  step r0 (RecvPublish event) = Some (r, o0) →
  (∀ tr r' o,
     run r tr = Some (r', o) → Store ∉ tr →
     ∃ k, k ≤ length (subscribers r0)
       ∧ sends o = map (fun c => (c, event)) (take k (subscribers r0))
       ∧ ctl r' = Fanout event (drop k (subscribers r0))
       ∧ (∀ c, ClientDrain c ∉ tr →
            received c o ++ bufOf r' c
            = bufOf r0 c
              ++ (if decide (c ∈ take k (subscribers r0)) then [event] else []))
       ∧ archive r' = archive r0
       ∧ subscribers r' = subscribers r0
       ∧ (k < length (subscribers r0) → step r' Store = None)
       ∧ (k = length (subscribers r0) →
          step r' Store
          = Some (mkRoom (push_archive (archive r0) event) (subscribers r0)
                         (heap r') Idle, [])))
  ∧ (∃ tr r' o,
       (Store ∉ tr)
       ∧ run r (tr ++ [Store]) = Some (r', o)
       ∧ sends o = map (fun c => (c, event)) (subscribers r0)
       ∧ (∀ c, received c o ++ bufOf r' c
               = bufOf r0 c
                 ++ (if decide (c ∈ subscribers r0) then [event] else []))
       ∧ archive r' = push_archive (archive r0) event
       ∧ subscribers r' = subscribers r0
       ∧ ctl r' = Idle).
Proof.
  intros Hreach Hstep. step_inv Hstep.
  destruct (reachable_wf _ Hreach) as (Hnd & Hlt & _). split.
  - intros tr r' o Hrun Hst.
    destruct ((fun H => fanout_prefix tr _ r' o event (subscribers r0) H Hrun Hst)
                eq_refl) as (k & Hk & Hs & Hc & Ha & Hsub).
    exists k. simpl in Ha, Hsub.
    split; [exact Hk|]. split; [exact Hs|]. split; [exact Hc|].
    split.
    { intros c Hdr. rewrite (fifo_run _ c _ _ _ Hrun Hdr).
      rewrite (delivered_of_sends o (take k (subscribers r0)) event c); [reflexivity| |exact Hs].
      eapply sublist_NoDup; [exact Hnd | apply sublist_take]. }
    split; [exact Ha|]. split; [exact Hsub|]. split.
    + intros Hless. unfold step. rewrite Hc.
      destruct (drop k (subscribers r0)) as [|c rest] eqn:Hd; [|reflexivity].
      apply (f_equal length) in Hd. rewrite length_drop in Hd. simpl in Hd. lia.
    + intros ->. unfold step. rewrite Hc, drop_all, Ha, Hsub. reflexivity.
  - pose proof (queues_bounded _ Hreach) as Hq.
    edestruct (fanout_schedule_runs r0 (subscribers r0)
                 (mkRoom (archive r0) (subscribers r0) (heap r0)
                         (Fanout event (subscribers r0))) event eq_refl Hnd)
      as (r1 & o1 & Hrun & Hs & Hc & Ha & Hsub).
    { intros c Hc. destruct (lookup_lt_is_Some_2 _ _ (Hlt c Hc)) as [ch Hch].
      destruct (Forall_lookup_1 _ _ _ _ Hq Hch) as [Hcap Hlen].
      exists ch. simpl. unfold bufOf. rewrite Hch. auto. }
    exists (fanout_schedule r0 (subscribers r0)).
    exists (mkRoom (push_archive (archive r1) event) (subscribers r1) (heap r1) Idle).
    exists o1. split; [apply fanout_schedule_no_store|]. split.
    { rewrite run_app, Hrun. cbn [run]. unfold step. rewrite Hc.
      rewrite !app_nil_r. reflexivity. }
    split; [exact Hs|]. split.
    { intros c.
      rewrite <- (delivered_of_sends o1 (subscribers r0) event c Hnd Hs).
      apply (fifo_run _ c _ _ _ Hrun). apply fanout_schedule_no_drain. }
    simpl. simpl in Ha, Hsub. rewrite Ha, Hsub. auto.
Qed.

Lemma publish_delivers_then_stores_witness :
  (∀ tr r' o,
     run room_full tr = Some (r', o) → Store ∉ tr →
     ∃ k, k ≤ length (subscribers room_ten)
       ∧ sends o = map (fun c => (c, said 10)) (take k (subscribers room_ten))
       ∧ ctl r' = Fanout (said 10) (drop k (subscribers room_ten))
       ∧ (∀ c, ClientDrain c ∉ tr →
            received c o ++ bufOf r' c
            = bufOf room_ten c
              ++ (if decide (c ∈ take k (subscribers room_ten)) then [said 10] else []))
       ∧ archive r' = archive room_ten
       ∧ subscribers r' = subscribers room_ten
       ∧ (k < length (subscribers room_ten) → step r' Store = None)
       ∧ (k = length (subscribers room_ten) →
          step r' Store
          = Some (mkRoom (push_archive (archive room_ten) (said 10))
                         (subscribers room_ten) (heap r') Idle, [])))
  ∧ (∃ tr r' o,
       (Store ∉ tr)
       ∧ run room_full (tr ++ [Store]) = Some (r', o)
       ∧ sends o = map (fun c => (c, said 10)) (subscribers room_ten)
       ∧ (∀ c, received c o ++ bufOf r' c
               = bufOf room_ten c
                 ++ (if decide (c ∈ subscribers room_ten) then [said 10] else []))
       ∧ archive r' = push_archive (archive room_ten) (said 10)
       ∧ subscribers r' = subscribers room_ten
       ∧ ctl r' = Idle).
Proof.
  refine (publish_delivers_then_stores room_ten (said 10) room_full [] _ _).
  - exists trace_ten. eexists. vm_compute. reflexivity.
  - vm_compute. reflexivity.
Defined.

(** The same on the room whose only member has ten events waiting: the
    send waits for the client, then goes through, then the event is stored. *)
Example publish_to_full_queue :
  step room_full SendNext = None
  ∧ step room_full Store = None
  ∧ (fst <$> run room_full [ClientRecv 0; SendNext; Store])
    = Some (mkRoom (map said (seq 0 11)) [0] [mkChan 10 (map said (seq 1 10))] Idle).
Proof. split; [|split]; vm_compute; reflexivity. Qed.

(** The order of the specification does have the property that the order
    of the source lacks. *)
Lemma spec_run_app r tr1 tr2 :
  spec_run r (tr1 ++ tr2) =
  match spec_run r tr1 with
  | Some (r1, o1) =>
      match spec_run r1 tr2 with
      | Some (r2, o2) => Some (r2, o1 ++ o2)
      | None => None
      end
  | None => None
  end.
Proof.
  revert r. induction tr1 as [|l tr1 IH]; intros r; cbn [spec_run app].
  - destruct (spec_run r tr2) as [[r2 o2]|]; reflexivity.
  - destruct (spec_step r l) as [[r1 o1]|]; [|reflexivity].
    rewrite IH. destruct (spec_run r1 tr1) as [[r1' o1']|]; [|reflexivity].
    destruct (spec_run r1' tr2) as [[r2 o2]|]; [|reflexivity].
    rewrite app_assoc. reflexivity.
Qed.

Lemma spec_step_newest r l r1 o1 :
  (∀ e rest, ctl r = Fanout e rest → last (archive r) = Some e) →
  spec_step r l = Some (r1, o1) →
  ∀ e rest, ctl r1 = Fanout e rest → last (archive r1) = Some e.
Proof.
  intros Hinv Hstep e rest.
  destruct l; unfold spec_step in Hstep; step_inv Hstep; simpl;
    try discriminate; rewrite ?E in *; eauto.
  - (* RecvPublish *)
    intros [= <- _]. unfold push_archive. apply last_snoc.
  - (* SendNext *)
    intros [= <- _]. eapply Hinv. reflexivity.
Qed.

Lemma spec_run_newest tr : ∀ r r1 o1,
  (∀ e rest, ctl r = Fanout e rest → last (archive r) = Some e) →
  spec_run r tr = Some (r1, o1) →
  ∀ e rest, ctl r1 = Fanout e rest → last (archive r1) = Some e.
Proof.
  induction tr as [|l tr IH]; intros r r1 o1 Hinv Hrun; cbn [spec_run] in Hrun.
  - injection Hrun as <- _. exact Hinv.
  - destruct (spec_step r l) as [[r' o']|] eqn:Hstep; [|discriminate].
    destruct (spec_run r' tr) as [[r2 o2]|] eqn:Hrun'; [|discriminate].
    injection Hrun as <- _.
    eapply IH; [|eassumption]. eapply spec_step_newest; eassumption.
Qed.

Lemma spec_order_appends_first : appends_before_delivering spec_run.
Proof.
  intros tr r o c event Hrun Hlast.
  rewrite spec_run_app in Hrun.
  destruct (spec_run new_room tr) as [[r1 o1]|] eqn:Hrun1; [|discriminate].
  cbn [spec_run] in Hrun.
  destruct (spec_step r1 SendNext) as [[r2 o2]|] eqn:Hstep; [|discriminate].
  injection Hrun as <- <-.
  assert (Hinv : ∀ e rest, ctl r1 = Fanout e rest → last (archive r1) = Some e).
  { eapply spec_run_newest; [|eassumption].
    intros e rest Hctl. simpl in Hctl. discriminate Hctl. }
  unfold spec_step in Hstep. step_inv Hstep.
  rewrite app_nil_r, last_snoc in Hlast. injection Hlast as _ <-.
  simpl. eapply Hinv. reflexivity.
Qed.

(** C4 as the specification states it fails: the event is in the member's
    queue while the archive is still empty. *)
Lemma delivery_precedes_archiving : ¬ appends_before_delivering run.
Proof.
  intros H.
  specialize (H trace_delivered
                (mkRoom [] [0] [mkChan 10 [said 0]] (Fanout (said 0) []))
                [Replied (mkSubscription [] 0); Delivered 0 (said 0)]
                0 (said 0)).
  assert (Hfalse : last (@nil Event) = Some (said 0)).
  { apply H; vm_compute; reflexivity. }
  discriminate Hfalse.
Qed.

(** C9.  Once the goroutine has carried out the removal of a channel it
    had handed out, nothing it does afterwards, whatever is published, puts
    an event into that channel, and the channel never becomes a member
    again. *)
Theorem no_delivery_after_removal r0 c r o0 tr r' o :
  reachable r0 →
  c < length (heap r0) →
  step r0 (RecvUnsubscribe c) = Some (r, o0) →
  run r tr = Some (r', o) →
  delivered c o = [] ∧ c ∉ subscribers r'.
Proof.
  intros Hreach Hc Hstep Hrun.
  destruct (reachable_wf _ Hreach) as (Hnd & _ & _).
  assert (Hret : retired c r).
  { step_inv Hstep. split; [exact Hc|]. split; [|exact I].
    simpl. apply remove_first_gone. exact Hnd. }
  destruct (retired_run _ _ _ _ _ Hret Hrun) as [(_ & Hout & _) Hd].
  split; assumption.
Qed.

Lemma no_delivery_after_removal_witness :
  delivered 0 [Delivered 1 (said 1)] = []
  ∧ 0 ∉ subscribers (mkRoom [said 0; said 1] [1]
                            [mkChan 10 [said 0]; mkChan 10 [said 1]] Idle).
Proof.
  apply (no_delivery_after_removal room_two 0
           (mkRoom [said 0] [1] [mkChan 10 [said 0]; mkChan 10 []] Idle) []
           [RecvPublish (said 1); SendNext; Store]).
  - exists trace_two. eexists. vm_compute. reflexivity.
  - simpl. lia.
  - vm_compute. reflexivity.
  - vm_compute. reflexivity.
Defined.

End ActorClaims.

(** ** The callbacks *)

Module ServerClaims.
Import Actor Server Examples ActorFacts.
Local Open Scope string_scope.
Local Open Scope list_scope.

Lemma Subscribe_idle (rooms : gmap string Channels) key v :
  rooms !! key = Some v →
  ctl (room v) = Idle →
  Subscribe rooms key
  = Some (<[key := mkChannels (userList v)
                     (mkRoom (archive (room v))
                             (subscribers (room v) ++ [length (heap (room v))])
                             (heap (room v) ++ [mkChan 10 []]) Idle)]> rooms,
          mkSubscription (archive (room v)) (length (heap (room v)))).
Proof.
  intros Hv Hidle. unfold Subscribe. rewrite Hv.
  unfold step at 1. rewrite Hidle. unfold step. simpl.
  rewrite copy_archive_id. reflexivity.
Qed.

Lemma publish_idle (rooms : gmap string Channels) key v event :
  rooms !! key = Some v →
  ctl (room v) = Idle →
  publish rooms key event
  = Some (<[key := mkChannels (userList v)
                     (set_ctl (room v) (Fanout event (subscribers (room v))))]> rooms).
Proof.
  intros Hv Hidle. unfold publish. rewrite Hv.
  unfold step. rewrite Hidle. reflexivity.
Qed.

(** A login with the right password in a room whose goroutine is at its
    [select]: subscribe, then the join event is accepted, and the snapshot
    is emitted to the socket. *)
Lemma login_accepted so now (rooms : gmap string Channels) src roomID userID userPw rest v :
  strings_Split pipe src = roomID :: userID :: userPw :: rest →
  rooms !! roomID = Some v →
  userList v !! userID = Some userPw →
  ctl (room v) = Idle →
  login so now rooms src
  = Done (<[roomID := mkChannels (userList v)
                        (mkRoom (archive (room v))
                                (subscribers (room v) ++ [length (heap (room v))])
                                (heap (room v) ++ [mkChan 10 []])
                                (Fanout (NewEvent now "join" userID "")
                                        (subscribers (room v) ++ [length (heap (room v))])))]>
            rooms)
         (map (fun event => mkEmit so "event" (PEvent event)) (archive (room v)))
         (Some (mkSubscription (archive (room v)) (length (heap (room v))))).
Proof.
  intros Hsplit Hv Hu Hidle.
  unfold login. rewrite Hsplit. simpl. rewrite Hv, Hu.
  rewrite decide_True by reflexivity.
  rewrite (Subscribe_idle _ _ _ Hv Hidle).
  unfold Join. erewrite publish_idle; [|apply lookup_insert_eq|reflexivity].
  simpl. rewrite insert_insert_eq. reflexivity.
Qed.

(** The end-to-end scenarios, run on the empty registry. *)
Example register_alice : register ∅ "R1|alice|pw1" = Done rooms_alice [] None.
Proof. reflexivity. Qed.

Example login_bob_unregistered :
  login 7 100 rooms_alice "R1|bob|x"
  = Done rooms_alice [mkEmit 7 "error" (PString user_missing)] None.
Proof. vm_compute. reflexivity. Qed.

Example login_alice_wrong_password :
  login 7 100 rooms_alice "R1|alice|wrongpw"
  = Done rooms_alice [mkEmit 7 "error" (PString wrong_password)] None.
Proof. vm_compute. reflexivity. Qed.

Example login_alice :
  ∃ rooms, login 7 100 rooms_alice "R1|alice|pw1"
           = Done rooms [] (Some (mkSubscription [] 0))
    ∧ room <$> rooms !! "R1"
      = Some (mkRoom [] [0] [mkChan 10 []]
                     (Fanout (NewEvent 100 "join" "alice" "") [0])).
Proof. eexists. split; vm_compute; reflexivity. Qed.

Example split_examples :
  strings_Split pipe "R1|alice|pw1" = ["R1"; "alice"; "pw1"]
  ∧ strings_Split pipe "" = [""]
  ∧ strings_Split pipe "a||b|" = ["a"; ""; "b"; ""].
Proof. repeat split. Qed.





(** C6.  A register or login payload that splits into fewer than three
    fields makes the callback index its slice out of range; with three or
    more fields neither callback does. *)
Theorem short_payload_panics (rooms : gmap string Channels) so now src :
  (length (strings_Split pipe src) < 3 →
     register rooms src = Panic ∧ login so now rooms src = Panic)
  ∧ ((3 ≤ length (strings_Split pipe src))%nat →
     register rooms src ≠ Panic ∧ login so now rooms src ≠ Panic).
Proof.
  unfold register, login.
  destruct (strings_Split pipe src) as [|f0 [|f1 [|f2 fs]]]; simpl;
    (split; [intros Hlt | intros Hge]); try lia; try (split; reflexivity).
  split.
  - destruct (rooms !! f0); discriminate.
  - destruct (rooms !! f0) as [v|]; [|discriminate].
    destruct (userList v !! f1) as [pw|]; [|discriminate].
    case_decide; [|discriminate].
    destruct (Subscribe rooms f0) as [[rooms1 s]|]; [|discriminate].
    destruct (Join now f1 f0 rooms1); discriminate.
Qed.

Lemma short_payload_panics_witness :
  (register ∅ "R1|alice" = Panic ∧ login 7 100 ∅ "R1|alice" = Panic)
  ∧ (register ∅ "R1|alice|pw1" ≠ Panic ∧ login 7 100 ∅ "R1|alice|pw1" ≠ Panic).
Proof.
  split.
  - apply (short_payload_panics ∅ 7 100 "R1|alice"). vm_compute. lia.
  - apply (short_payload_panics ∅ 7 100 "R1|alice|pw1"). vm_compute. lia.
Defined.



(** C8.  In a room the goroutine can have reached and in which it is at its
    [select]: an unsubscribe for a channel that is no member returns the
    room as it was; a [Cancel] goes through, and a second [Cancel] of the
    same subscription goes through as well and returns the registry as the
    first one left it. *)
Theorem unsubscribe_idempotent (rooms : gmap string Channels) key v s :
  rooms !! key = Some v →
  reachable (room v) →
  ctl (room v) = Idle →
  (New s ∉ subscribers (room v) →
     step (room v) (RecvUnsubscribe (New s)) = Some (room v, []))
  ∧ ∃ rooms1 v1,
      Cancel s key rooms = Some rooms1
      ∧ Cancel s key rooms1 = Some rooms1
      ∧ rooms1 !! key = Some v1
      ∧ step (room v1) (RecvUnsubscribe (New s)) = Some (room v1, []).
Proof.
  intros Hv Hreach Hidle. split.
  { intros Hout. apply step_unsubscribe_absent; assumption. }
  destruct (reachable_wf _ Hreach) as (Hnd & _ & _).
  destruct (run (room v) [RecvUnsubscribe (New s); ClientDrain (New s)])
    as [[r2 o2]|] eqn:Hrun.
  2:{ exfalso. cbn [run] in Hrun. unfold step at 1 in Hrun.
      rewrite Hidle in Hrun. unfold step in Hrun. simpl in Hrun.
      destruct (heap (room v) !! New s); discriminate. }
  pose proof (cancel_twice _ _ _ _ Hnd Hrun) as Hrun2.
  assert (Hcancel : ∀ (m : gmap string Channels) u ra rb ob,
             m !! key = Some u →
             run (room u) [RecvUnsubscribe (New s); ClientDrain (New s)] = Some (rb, ob) →
             ra = rb →
             Cancel s key m = Some (<[key := mkChannels (userList u) ra]> m)).
  { intros m u ra rb ob Hu Hr ->. unfold Cancel, set_room. rewrite Hu.
    cbn [run] in Hr.
    destruct (step (room u) (RecvUnsubscribe (New s))) as [[ra oa]|]; [|discriminate].
    destruct (step ra (ClientDrain (New s))) as [[rc oc]|]; [|discriminate].
    injection Hr as <- _. reflexivity. }
  exists (<[key := mkChannels (userList v) r2]> rooms), (mkChannels (userList v) r2).
  split; [eapply Hcancel; eauto|]. split; [|split].
  - erewrite Hcancel; [|apply lookup_insert_eq|exact Hrun2|reflexivity].
    simpl. rewrite insert_insert_eq. reflexivity.
  - apply lookup_insert_eq.
  - simpl. cbn [run] in Hrun2.
    destruct (step r2 (RecvUnsubscribe (New s))) as [[ra oa]|] eqn:Hs; [|discriminate].
    assert (Hidle2 : ctl r2 = Idle).
    { unfold step in Hs. destruct (ctl r2); try discriminate. reflexivity. }
    apply step_unsubscribe_absent; [exact Hidle2|].
    cbn [run] in Hrun. unfold step at 1 in Hrun. rewrite Hidle in Hrun.
    unfold step in Hrun. simpl in Hrun.
    destruct (heap (room v) !! New s); injection Hrun as <- _; simpl;
      apply remove_first_gone; exact Hnd.
Qed.

Lemma unsubscribe_idempotent_witness :
  (0 ∉ subscribers room_two →
     step room_two (RecvUnsubscribe 0) = Some (room_two, []))
  ∧ ∃ rooms1 v1,
      Cancel (mkSubscription [] 0) "R1" rooms_two = Some rooms1
      ∧ Cancel (mkSubscription [] 0) "R1" rooms1 = Some rooms1
      ∧ rooms1 !! "R1" = Some v1
      ∧ step (room v1) (RecvUnsubscribe 0) = Some (room v1, []).
Proof.
  apply (unsubscribe_idempotent rooms_two "R1"
           (mkChannels (<["alice" := "pw1"]> ∅) room_two) (mkSubscription [] 0)).
  - vm_compute. reflexivity.
  - exists trace_two. eexists. vm_compute. reflexivity.
  - reflexivity.
Defined.

(** C10.  Registering a user the room already lists replaces the stored
    password by the new one and changes nothing else: the room's goroutine,
    the other users of the room and the other rooms stay as they were.  A
    later login of that user with any other password, the old one included,
    is turned away; with the new password it is let in. *)
Theorem register_overwrites
    (rooms : gmap string Channels) src roomID userID userPw rest v old :
  strings_Split pipe src = roomID :: userID :: userPw :: rest →
  rooms !! roomID = Some v →
  userList v !! userID = Some old →
  ∃ rooms' v',
    register rooms src = Done rooms' [] None
    ∧ rooms' !! roomID = Some v'
    ∧ userList v' !! userID = Some userPw
    ∧ room v' = room v
    ∧ (∀ u, u ≠ userID → userList v' !! u = userList v !! u)
    ∧ (∀ k, k ≠ roomID → rooms' !! k = rooms !! k)
    ∧ (∀ so now src2 pw rest2,
         strings_Split pipe src2 = roomID :: userID :: pw :: rest2 →
         (pw ≠ userPw →
            login so now rooms' src2
            = Done rooms' [mkEmit so "error" (PString wrong_password)] None)
         ∧ (pw = userPw → ctl (room v) = Idle →
            ∃ rooms2,
              login so now rooms' src2
              = Done rooms2
                     (map (fun event => mkEmit so "event" (PEvent event))
                          (archive (room v)))
                     (Some (mkSubscription (archive (room v))
                                           (length (heap (room v))))))).
Proof.
  intros Hsplit Hv Hold.
  exists (<[roomID := mkChannels (<[userID := userPw]> (userList v)) (room v)]> rooms),
         (mkChannels (<[userID := userPw]> (userList v)) (room v)).
  split.
  { unfold register. rewrite Hsplit. simpl. rewrite Hv. reflexivity. }
  split; [apply lookup_insert_eq|].
  split; [apply lookup_insert_eq|].
  split; [reflexivity|].
  split; [intros u Hu; simpl; apply lookup_insert_ne; congruence|].
  split; [intros k Hk; apply lookup_insert_ne; congruence|].
  intros so now src2 pw rest2 Hsplit2. split.
  - intros Hne. unfold login. rewrite Hsplit2. simpl.
    rewrite lookup_insert_eq. simpl. rewrite lookup_insert_eq.
    rewrite decide_False by congruence. reflexivity.
  - intros -> Hidle. eexists.
    apply (login_accepted so now _ src2 roomID userID userPw rest2
             (mkChannels (<[userID := userPw]> (userList v)) (room v)));
      [assumption | apply lookup_insert_eq | apply lookup_insert_eq | assumption].
Qed.

Lemma register_overwrites_witness :
  ∃ rooms' v',
    register rooms_alice "R1|alice|pw2" = Done rooms' [] None
    ∧ rooms' !! "R1" = Some v'
    ∧ userList v' !! "alice" = Some "pw2"
    ∧ room v' = new_room
    ∧ (∀ u, u ≠ "alice" → userList v' !! u = (<["alice" := "pw1"]> ∅ : gmap string string) !! u)
    ∧ (∀ k, k ≠ "R1" → rooms' !! k = rooms_alice !! k)
    ∧ (∀ so now src2 pw rest2,
         strings_Split pipe src2 = "R1" :: "alice" :: pw :: rest2 →
         (pw ≠ "pw2" →
            login so now rooms' src2
            = Done rooms' [mkEmit so "error" (PString wrong_password)] None)
         ∧ (pw = "pw2" → ctl new_room = Idle →
            ∃ rooms2,
              login so now rooms' src2
              = Done rooms2
                     (map (fun event => mkEmit so "event" (PEvent event))
                          (archive new_room))
                     (Some (mkSubscription (archive new_room)
                                           (length (heap new_room)))))).
Proof.
  refine (register_overwrites rooms_alice "R1|alice|pw2" "R1" "alice" "pw2" []
            (mkChannels (<["alice" := "pw1"]> ∅) new_room) "pw1" _ _ _).
  - vm_compute. reflexivity.
  - vm_compute. reflexivity.
  - vm_compute. reflexivity.
Defined.

End ServerClaims.

(** ** More about the goroutine *)

Module ActorExtras.
Import Actor Examples ActorFacts.

(** X1.  Every channel the goroutine has made has capacity ten and never
    holds more than ten events. *)
Theorem queue_within_capacity r c ch :
  reachable r →
  heap r !! c = Some ch →
  cap ch = 10 ∧ length (buf ch) ≤ 10.
Proof.
  intros Hreach Hch.
  exact (Forall_lookup_1 _ _ _ _ (queues_bounded r Hreach) Hch).
Qed.

Lemma queue_within_capacity_witness :
  cap (mkChan 10 [said 0]) = 10 ∧ length (buf (mkChan 10 [said 0])) ≤ 10.
Proof.
  apply (queue_within_capacity room_two 0 (mkChan 10 [said 0])).
  - exists trace_two. eexists. vm_compute. reflexivity.
  - reflexivity.
Defined.

(** X2.  The members of a room are pairwise distinct, and each of them is a
    channel the goroutine has made. *)
Theorem members_distinct_and_made r :
  reachable r →
  NoDup (subscribers r) ∧ ∀ c, c ∈ subscribers r → is_Some (heap r !! c).
Proof.
  intros Hreach. destruct (reachable_wf _ Hreach) as (Hnd & Hlt & _).
  split; [exact Hnd|].
  intros c Hc. apply lookup_lt_is_Some. apply Hlt. exact Hc.
Qed.

Lemma members_distinct_and_made_witness :
  NoDup (subscribers room_two) ∧ ∀ c, c ∈ subscribers room_two → is_Some (heap room_two !! c).
Proof.
  apply (members_distinct_and_made room_two).
  exists trace_two. eexists. vm_compute. reflexivity.
Defined.

(** X3.  What a client has taken out of a channel, followed by what still
    waits in it, is what the channel held at the start followed by what the
    goroutine has put into it since, in that order, as long as the channel
    is not drained: nothing is lost, repeated or reordered on the way. *)
Theorem queue_is_fifo tr c : ∀ r r' o,
  run r tr = Some (r', o) →
  ClientDrain c ∉ tr →
  received c o ++ bufOf r' c = bufOf r c ++ delivered c o.
Proof.
  induction tr as [|l tr IH]; intros r r' o Hrun Hdr; cbn [run] in Hrun.
  - injection Hrun as <- <-. simpl. rewrite app_nil_r. reflexivity.
  - destruct (step r l) as [[r1 o1]|] eqn:Hstep; [|discriminate].
    destruct (run r1 tr) as [[r2 o2]|] eqn:Hrun'; [|discriminate].
    injection Hrun as <- <-.
    apply not_elem_of_cons in Hdr as [Hl Hdr].
    pose proof (fifo_step _ _ _ _ c Hstep (not_eq_sym Hl)) as H1.
    pose proof (IH _ _ _ Hrun' Hdr) as H2.
    rewrite received_app, delivered_app, <- app_assoc, H2.
    rewrite !app_assoc, H1. reflexivity.
Qed.

Lemma queue_is_fifo_witness :
  received 1 obs_live ++ bufOf room_live 1 = bufOf room_two 1 ++ delivered 1 obs_live.
Proof.
  apply (queue_is_fifo trace_live 1 room_two room_live obs_live).
  - vm_compute. reflexivity.
  - unfold trace_live. intros Hin.
    repeat (apply elem_of_cons in Hin as [Hin | Hin]; [discriminate Hin|]).
    apply elem_of_nil in Hin. exact Hin.
Defined.

(** A member is owed every event that is published. *)
Lemma deliver_step r l r1 o1 c :
  wf r → c ∈ subscribers r →
  step r l = Some (r1, o1) →
  l ≠ RecvUnsubscribe c →
  delivered c o1 ++ pending r1 c = pending r c ++ published [l]
  ∧ c ∈ subscribers r1.
Proof.
  intros (Hnd & Hlt & Hctl) Hc Hstep Hun.
  destruct l; step_inv Hstep; unfold pending; simpl; rewrite ?E in *;
    rewrite ?app_nil_r; try (split; [reflexivity | assumption]).
  - (* RecvSubscribe *)
    split; [reflexivity | apply elem_of_app; auto].
  - (* RecvPublish *)
    case_decide; [|contradiction]. split; [reflexivity | assumption].
  - (* SendNext *)
    split; [|assumption]. apply NoDup_cons in Hctl as [Hn Hl].
    destruct (decide (n = c)) as [-> | Hne].
    + destruct (decide (c ∈ l)) as [Hin | _]; [contradiction|].
      destruct (decide (c ∈ c :: l)) as [_ | Hout]; [reflexivity|].
      exfalso. apply Hout, elem_of_cons. auto.
    + destruct (decide (c ∈ l)) as [Hin | Hnin];
        destruct (decide (c ∈ n :: l)) as [Hin' | Hnin']; try reflexivity.
      * exfalso. apply Hnin', elem_of_cons. auto.
      * exfalso. apply elem_of_cons in Hin' as [-> | Hin']; contradiction.
  - (* RecvUnsubscribe *)
    split; [reflexivity|].
    apply remove_first_other; [congruence | assumption].
Qed.

(** X4.  While a channel stays a member, the events the goroutine puts
    into it are exactly the events published in the meantime, each once and
    in publish order; only the event of a fan-out that is under way may
    still be missing. *)
Theorem member_gets_every_publish tr c : ∀ r r' o,
  reachable r →
  c ∈ subscribers r →
  run r tr = Some (r', o) →
  RecvUnsubscribe c ∉ tr →
  delivered c o ++ pending r' c = pending r c ++ published tr
  ∧ c ∈ subscribers r'.
Proof.
  intros r r' o Hreach. apply reachable_wf in Hreach. revert r r' o Hreach.
  induction tr as [|l tr IH]; intros r r' o Hwf Hc Hrun Hun; cbn [run] in Hrun.
  - injection Hrun as <- <-. simpl. rewrite app_nil_r. auto.
  - destruct (step r l) as [[r1 o1]|] eqn:Hstep; [|discriminate].
    destruct (run r1 tr) as [[r2 o2]|] eqn:Hrun'; [|discriminate].
    injection Hrun as <- <-.
    apply not_elem_of_cons in Hun as [Hl Hun].
    destruct (deliver_step _ _ _ _ _ Hwf Hc Hstep (not_eq_sym Hl)) as [H1 Hc1].
    destruct (IH _ _ _ (wf_step _ _ _ _ Hwf Hstep) Hc1 Hrun' Hun) as [H2 Hc2].
    split; [|exact Hc2].
    rewrite delivered_app, <- app_assoc, H2.
    rewrite !app_assoc, H1.
    change (l :: tr) with ([l] ++ tr). rewrite published_app.
    rewrite !app_assoc. reflexivity.
Qed.

Lemma member_gets_every_publish_witness :
  delivered 0 obs_live ++ pending room_live 0
    = pending room_two 0 ++ published trace_live
  ∧ 0 ∈ subscribers room_live.
Proof.
  apply (member_gets_every_publish trace_live 0 room_two room_live obs_live).
  - exists trace_two. eexists. vm_compute. reflexivity.
  - simpl. apply elem_of_cons. auto.
  - vm_compute. reflexivity.
  - unfold trace_live. intros Hin.
    repeat (apply elem_of_cons in Hin as [Hin | Hin]; [discriminate Hin|]).
    apply elem_of_nil in Hin. exact Hin.
Defined.

(** X5.  When the next member to be served has ten events waiting, the
    goroutine is stuck: it takes no request, sends nothing and stores
    nothing.  As soon as that member's client takes one event out, the send
    goes through. *)
Theorem full_queue_stalls_room r event c rest :
  reachable r →
  ctl r = Fanout event (c :: rest) →
  length (bufOf r c) = 10 →
  (∀ l, is_client l = false → step r l = None)
  ∧ ∃ r1 oldest r2,
      step r (ClientRecv c) = Some (r1, [Received c oldest])
      ∧ step r1 SendNext = Some (r2, [Delivered c event])
      ∧ ctl r2 = Fanout event rest.
Proof.
  intros Hreach Hctl Hfull.
  unfold bufOf in Hfull.
  destruct (heap r !! c) as [[k q]|] eqn:Hch; [|discriminate Hfull].
  destruct (Forall_lookup_1 _ _ _ _ (queues_bounded r Hreach) Hch) as [Hcap _].
  simpl in Hfull, Hcap. subst k. split.
  - intros l Hl. destruct l; try discriminate Hl; unfold step; rewrite Hctl;
      try reflexivity.
    rewrite Hch. simpl. rewrite decide_False by lia. reflexivity.
  - destruct q as [|oldest q]; [discriminate Hfull|].
    assert (Hlt : c < length (heap r)) by (eapply lookup_lt_Some; eassumption).
    eexists. exists oldest. eexists. split.
    + unfold step. rewrite Hch. reflexivity.
    + simpl. unfold step. simpl. rewrite Hctl.
      rewrite list_lookup_insert_eq by assumption. simpl.
      simpl in Hfull. rewrite decide_True by lia. split; reflexivity.
Qed.

Lemma full_queue_stalls_room_witness :
  (∀ l, is_client l = false → step room_full l = None)
  ∧ ∃ r1 oldest r2,
      step room_full (ClientRecv 0) = Some (r1, [Received 0 oldest])
      ∧ step r1 SendNext = Some (r2, [Delivered 0 (said 10)])
      ∧ ctl r2 = Fanout (said 10) [].
Proof.
  apply (full_queue_stalls_room room_full (said 10) 0 []).
  - exists trace_full. eexists. vm_compute. reflexivity.
  - reflexivity.
  - vm_compute. reflexivity.
Defined.

(** X6.  Until twenty events have been published, the archive is the
    whole history of the room. *)
Theorem archive_is_history_until_full tr r o :
  run new_room tr = Some (r, o) →
  ctl r = Idle →
  length (published tr) ≤ 20 →
  archive r = published tr.
Proof.
  intros Hrun Hidle Hlen.
  destruct (archive_reachable _ _ _ Hrun) as (h & Hh & Ha).
  unfold inflight in Hh. rewrite Hidle, app_nil_r in Hh. subst h.
  rewrite Ha. apply lastn_short. exact Hlen.
Qed.

Lemma archive_is_history_until_full_witness :
  archive room_two = published trace_two.
Proof.
  apply (archive_is_history_until_full trace_two room_two
           [Replied (mkSubscription [] 0); Delivered 0 (said 0);
            Replied (mkSubscription [said 0] 1)]).
  - vm_compute. reflexivity.
  - reflexivity.
  - vm_compute. lia.
Defined.

Lemma replies_app o1 o2 : replies (o1 ++ o2) = replies o1 ++ replies o2.
Proof.
  induction o1 as [|x o1 IH]; simpl; [reflexivity|].
  destruct x; simpl; rewrite ?IH; reflexivity.
Qed.

(** The handles handed out so far are the channels made so far, less the
    one whose reply is still to be sent. *)
Lemma handles_counted tr r o :
  run new_room tr = Some (r, o) →
  map New (replies o) = seq 0 (handed_out r)
  ∧ (∀ s, ctl r = Replying s → S (New s) = length (heap r)).
Proof.
  revert tr r o.
  apply (run_new_room_ind (fun _ r o =>
           map New (replies o) = seq 0 (handed_out r)
           ∧ (∀ s, ctl r = Replying s → S (New s) = length (heap r)))).
  - split; [reflexivity | intros s Hs; discriminate Hs].
  - intros tr r o l r1 o1 _ [IH1 IH2] Hstep.
    rewrite replies_app, map_app.
    destruct l; step_inv Hstep; unfold handed_out in *; simpl;
      rewrite ?E in *; rewrite ?length_insert; rewrite ?app_nil_r;
      try (split; [exact IH1 | first [exact IH2 | intros s0 Hs0; discriminate Hs0]]).
    + (* RecvSubscribe *)
      rewrite length_app. simpl. split.
      * rewrite IH1. f_equal. lia.
      * intros s0 [= <-]. simpl. lia.
    + (* SendReply *)
      pose proof (IH2 s eq_refl) as Hs. split; [|intros s0 Hs0; discriminate Hs0].
      rewrite IH1. rewrite <- Hs. simpl length.
      replace (S (New s) - 1) with (New s) by lia.
      rewrite seq_S. reflexivity.
Qed.

(** X7.  The subscriptions a room hands out carry the channels 0, 1, 2,
    ... in the order of the replies: no two subscriptions ever share a
    channel. *)
Theorem handles_are_fresh tr r o :
  run new_room tr = Some (r, o) →
  map New (replies o) = seq 0 (length (replies o))
  ∧ NoDup (map New (replies o)).
Proof.
  intros Hrun. destruct (handles_counted _ _ _ Hrun) as [Hseq _].
  assert (Hlen : length (replies o) = handed_out r).
  { rewrite <- (length_map New), Hseq, length_seq. reflexivity. }
  rewrite Hlen. split; [exact Hseq|]. rewrite Hseq. apply NoDup_seq.
Qed.

Lemma handles_are_fresh_witness :
  map New (replies [Replied (mkSubscription [] 0); Delivered 0 (said 0);
                    Replied (mkSubscription [said 0] 1)])
  = seq 0 (length (replies [Replied (mkSubscription [] 0); Delivered 0 (said 0);
                            Replied (mkSubscription [said 0] 1)]))
  ∧ NoDup (map New (replies [Replied (mkSubscription [] 0); Delivered 0 (said 0);
                             Replied (mkSubscription [said 0] 1)])).
Proof.
  apply (handles_are_fresh trace_two room_two).
  vm_compute. reflexivity.
Defined.

(** X8.  No snapshot a room hands out is longer than twenty events. *)
Theorem snapshots_bounded tr r o s :
  run new_room tr = Some (r, o) →
  s ∈ replies o →
  length (Archive s) ≤ 20.
Proof.
  intros Hrun. revert s.
  assert (H : (∀ s, s ∈ replies o → length (Archive s) ≤ 20)
              ∧ (∀ s, ctl r = Replying s → length (Archive s) ≤ 20)).
  { revert tr r o Hrun.
    apply (run_new_room_ind (fun _ r o =>
             (∀ s, s ∈ replies o → length (Archive s) ≤ 20)
             ∧ (∀ s, ctl r = Replying s → length (Archive s) ≤ 20))).
    - split; intros s Hs; [apply elem_of_nil in Hs; destruct Hs | discriminate Hs].
    - intros tr r o l r1 o1 Hrun [IH1 IH2] Hstep.
      destruct (archive_reachable _ _ _ Hrun) as (h & _ & Ha).
      assert (Hlen : length (archive r) ≤ 20) by (rewrite Ha, length_lastn; lia).
      split.
      + intros s Hs. rewrite replies_app in Hs.
        apply elem_of_app in Hs as [Hs | Hs]; [auto|].
        destruct l; step_inv Hstep; simpl in Hs;
          try (apply elem_of_nil in Hs; destruct Hs).
        apply list_elem_of_singleton in Hs. subst. apply IH2. reflexivity.
      + intros s Hs.
        destruct l; step_inv Hstep; simpl in Hs; rewrite ?E in *;
          try discriminate Hs; try (apply IH2; assumption).
        injection Hs as <-. simpl. rewrite copy_archive_id. exact Hlen. }
  exact (proj1 H).
Qed.

Lemma snapshots_bounded_witness :
  length (Archive (mkSubscription (map said (seq 1 20)) 0)) ≤ 20.
Proof.
  apply (snapshots_bounded (trace21 ++ [RecvSubscribe; SendReply])
           (mkRoom (map said (seq 1 20)) [0] [mkChan 10 []] Idle)
           [Replied (mkSubscription (map said (seq 1 20)) 0)]).
  - vm_compute. reflexivity.
  - simpl. apply list_elem_of_singleton. reflexivity.
Defined.

(** A fan-out in which no send has to wait runs to its end. *)
Lemma finish_fanout r event rest :
  ctl r = Fanout event rest →
  NoDup rest →
  (∀ c, c ∈ rest → ∃ ch, heap r !! c = Some ch ∧ length (buf ch) < cap ch) →
  ∃ r', run r (finish r) = Some (r', map (fun c => Delivered c event) rest)
        ∧ ctl r' = Idle
        ∧ archive r' = push_archive (archive r) event
        ∧ subscribers r' = subscribers r
        ∧ ∀ c, bufOf r' c = bufOf r c ++ (if decide (c ∈ rest) then [event] else []).
Proof.
  intros Hctl Hnd Hroom.
  destruct (fanout_run rest r event Hctl Hnd Hroom)
    as (r1 & Hrun & Hctl1 & Ha & Hs & Hb).
  exists (mkRoom (push_archive (archive r1) event) (subscribers r1) (heap r1) Idle).
  split.
  { unfold finish. rewrite Hctl, run_app, Hrun. cbn [run].
    unfold step. rewrite Hctl1. rewrite !app_nil_r. reflexivity. }
  simpl. rewrite Ha, Hs. split; [reflexivity|]. split; [reflexivity|].
  split; [reflexivity|]. intros c. rewrite <- Hb. reflexivity.
Qed.

End ActorExtras.

(** ** More about the callbacks *)

Module ServerExtras.
Import Actor Server Examples ActorFacts ActorExtras ServerClaims.
Local Open Scope string_scope.
Local Open Scope list_scope.

(** *** Splitting a request *)

Lemma length_Split sep s :
  length (strings_Split sep s) = S (count_sep sep s).
Proof.
  induction s as [|a s IH]; simpl; [reflexivity|].
  case_decide; simpl; [rewrite IH; reflexivity|].
  destruct (strings_Split sep s) as [|field fields]; simpl in *; lia.
Qed.

Lemma Split_free sep s : count_sep sep s = 0 → strings_Split sep s = [s].
Proof.
  induction s as [|a s IH]; simpl; [reflexivity|].
  case_decide; [discriminate|]. intros Hs. rewrite IH by exact Hs. reflexivity.
Qed.

Lemma Split_app sep a b :
  count_sep sep a = 0 →
  strings_Split sep (a +:+ String sep b) = a :: strings_Split sep b.
Proof.
  induction a as [|x a IH]; simpl.
  - intros _. rewrite decide_True by reflexivity. reflexivity.
  - case_decide; [discriminate|]. intros Ha. rewrite IH by exact Ha. reflexivity.
Qed.

Lemma Split_request roomID userID userPw :
  pipe_free roomID → pipe_free userID →
  strings_Split pipe (request roomID userID userPw)
  = roomID :: userID :: strings_Split pipe userPw.
Proof.
  intros Hr Hu. unfold request.
  rewrite Split_app by exact Hr. rewrite Split_app by exact Hu. reflexivity.
Qed.

Lemma Split_fields_free sep s :
  Forall (fun field => count_sep sep field = 0) (strings_Split sep s).
Proof.
  induction s as [|a s IH]; simpl.
  - constructor; [reflexivity | constructor].
  - case_decide.
    + constructor; [reflexivity | exact IH].
    + destruct (strings_Split sep s) as [|field fields].
      * constructor; [|constructor]. simpl. rewrite decide_False by assumption.
        reflexivity.
      * apply Forall_cons in IH as [Hf Hfs]. constructor; [|exact Hfs].
        simpl. rewrite decide_False by assumption. exact Hf.
Qed.

(** X9.  [register] and [login] index out of range exactly on the
    payloads that hold fewer than two pipe characters; the empty payload is
    one of them. *)
Theorem panic_iff_fewer_than_two_pipes (rooms : gmap string Channels) so now src :
  (register rooms src = Panic ↔ count_sep pipe src < 2)
  ∧ (login so now rooms src = Panic ↔ count_sep pipe src < 2).
Proof.
  pose proof (length_Split pipe src) as Hlen.
  unfold register, login.
  destruct (strings_Split pipe src) as [|f0 [|f1 [|f2 fs]]]; simpl in *;
    try (split; split; intros; solve [lia | reflexivity]).
  split; split; intros H; try lia; exfalso.
  - destruct (rooms !! f0); discriminate H.
  - destruct (rooms !! f0) as [v|]; [|discriminate H].
    destruct (userList v !! f1) as [pw|]; [|discriminate H].
    case_decide; [|discriminate H].
    destruct (Subscribe rooms f0) as [[rooms1 s]|]; [|discriminate H].
    destruct (Join now f1 f0 rooms1); discriminate H.
Qed.

Lemma panic_iff_fewer_than_two_pipes_witness :
  register ∅ "" = Panic ∧ login 7 100 ∅ "R1|alice" = Panic.
Proof.
  split.
  - apply (panic_iff_fewer_than_two_pipes ∅ 7 100 ""). vm_compute. lia.
  - apply (panic_iff_fewer_than_two_pipes ∅ 7 100 "R1|alice"). vm_compute. lia.
Defined.

(** X10.  A register request made of a room, a user and a password
    without pipe characters records exactly that password for that user in
    that room.  A room that did not exist is created with this one user, an
    empty archive and no members; an existing room keeps its goroutine and
    its other users. *)
Theorem register_records_fields (rooms : gmap string Channels) roomID userID userPw :
  pipe_free roomID → pipe_free userID → pipe_free userPw →
  register rooms (request roomID userID userPw)
  = Done (<[roomID :=
             match rooms !! roomID with
             | Some v => mkChannels (<[userID := userPw]> (userList v)) (room v)
             | None => mkChannels (<[userID := userPw]> ∅) new_room
             end]> rooms) [] None.
Proof.
  intros Hr Hu Hp. unfold register.
  rewrite Split_request by assumption. rewrite Split_free by exact Hp. simpl.
  destruct (rooms !! roomID); reflexivity.
Qed.

Lemma register_records_fields_witness :
  register rooms_alice (request "R2" "bob" "x")
  = Done (<["R2" :=
             match rooms_alice !! "R2" with
             | Some v => mkChannels (<["bob" := "x"]> (userList v)) (room v)
             | None => mkChannels (<["bob" := "x"]> ∅) new_room
             end]> rooms_alice) [] None.
Proof.
  apply (register_records_fields rooms_alice "R2" "bob" "x"); reflexivity.
Defined.

(** X11.  Both callbacks look at the first three fields only: whatever
    follows a third pipe character is ignored, so a password is cut at its
    first pipe character, on registering and on logging in alike. *)
Theorem text_after_third_pipe_ignored
    (rooms : gmap string Channels) so now roomID userID userPw more :
  pipe_free roomID → pipe_free userID → pipe_free userPw →
  register rooms (request roomID userID (userPw +:+ String pipe more))
    = register rooms (request roomID userID userPw)
  ∧ login so now rooms (request roomID userID (userPw +:+ String pipe more))
    = login so now rooms (request roomID userID userPw).
Proof.
  intros Hr Hu Hp. unfold register, login.
  rewrite !Split_request by assumption.
  rewrite Split_app by exact Hp. rewrite (Split_free pipe userPw) by exact Hp.
  split; reflexivity.
Qed.

Lemma text_after_third_pipe_ignored_witness :
  register rooms_alice (request "R1" "alice" ("pw1" +:+ String pipe "tail"))
    = register rooms_alice (request "R1" "alice" "pw1")
  ∧ login 7 100 rooms_alice (request "R1" "alice" ("pw1" +:+ String pipe "tail"))
    = login 7 100 rooms_alice (request "R1" "alice" "pw1").
Proof.
  apply (text_after_third_pipe_ignored rooms_alice 7 100 "R1" "alice" "pw1" "tail");
    reflexivity.
Defined.

(** *** What [register] leaves alone *)

(** X12.  [register] emits nothing and hands out no subscription.  It
    removes no room and no user, and it does not touch the archive, the
    members or the queues of any room. *)
Theorem register_keeps_state (rooms : gmap string Channels) src rooms' out s :
  register rooms src = Done rooms' out s →
  out = [] ∧ s = None
  ∧ ∀ k v, rooms !! k = Some v →
      ∃ v', rooms' !! k = Some v' ∧ room v' = room v
            ∧ ∀ u, is_Some (userList v !! u) → is_Some (userList v' !! u).
Proof.
  unfold register.
  destruct (strings_Split pipe src) as [|roomID [|userID [|userPw fs]]]; simpl;
    try discriminate.
  destruct (rooms !! roomID) as [v0|] eqn:Hv0; intros [= <- <- <-];
    (split; [reflexivity|]; split; [reflexivity|]); intros k v Hk.
  - destruct (decide (k = roomID)) as [-> | Hne].
    + rewrite Hv0 in Hk. injection Hk as <-.
      eexists. split; [apply lookup_insert_eq|]. split; [reflexivity|].
      intros u Hu. simpl. destruct (decide (u = userID)) as [-> | Hu'].
      * rewrite lookup_insert_eq. eauto.
      * rewrite lookup_insert_ne by congruence. exact Hu.
    + exists v. rewrite lookup_insert_ne by congruence. auto.
  - destruct (decide (k = roomID)) as [-> | Hne]; [congruence|].
    exists v. rewrite lookup_insert_ne by congruence. auto.
Qed.

Lemma register_keeps_state_witness :
  ([] : list emit) = [] ∧ (None : option Subscription) = None
  ∧ ∀ k v, rooms_two !! k = Some v →
      ∃ v', (<["R1" := mkChannels (<["bob" := "x"]> (<["alice" := "pw1"]> ∅)) room_two]>
               rooms_two) !! k = Some v'
            ∧ room v' = room v
            ∧ ∀ u, is_Some (userList v !! u) → is_Some (userList v' !! u).
Proof.
  apply (register_keeps_state rooms_two "R1|bob|x").
  vm_compute. reflexivity.
Defined.

(** X13.  Registering the same payload a second time changes nothing. *)
Theorem register_idempotent (rooms : gmap string Channels) src rooms' out s :
  register rooms src = Done rooms' out s →
  register rooms' src = Done rooms' [] None.
Proof.
  unfold register.
  destruct (strings_Split pipe src) as [|roomID [|userID [|userPw fs]]]; simpl;
    try discriminate.
  destruct (rooms !! roomID) as [v0|] eqn:Hv0; intros [= <- _ _];
    rewrite lookup_insert_eq; simpl; rewrite !insert_insert_eq; reflexivity.
Qed.

Lemma register_idempotent_witness :
  register rooms_alice "R1|alice|pw1" = Done rooms_alice [] None.
Proof.
  apply (register_idempotent ∅ "R1|alice|pw1" rooms_alice [] None).
  reflexivity.
Defined.

(** X14.  Register, then log in with the same payload: whether the room
    existed or not, as long as its goroutine is at its [select], the login
    is let in, and the goroutine has taken the join event and is about to
    send it to every member, the newcomer included. *)
Theorem register_then_login
    so now (rooms : gmap string Channels) src roomID userID userPw rest :
  strings_Split pipe src = roomID :: userID :: userPw :: rest →
  (∀ v, rooms !! roomID = Some v → ctl (room v) = Idle) →
  ∃ rooms1 rooms2 s v2,
    register rooms src = Done rooms1 [] None
    ∧ login so now rooms1 src
      = Done rooms2 (map (fun event => mkEmit so "event" (PEvent event)) (Archive s))
             (Some s)
    ∧ rooms2 !! roomID = Some v2
    ∧ ctl (room v2) = Fanout (NewEvent now "join" userID "") (subscribers (room v2))
    ∧ New s ∈ subscribers (room v2).
Proof.
  intros Hsplit Hidle.
  set (v1 := match rooms !! roomID with
             | Some v => mkChannels (<[userID := userPw]> (userList v)) (room v)
             | None => mkChannels (<[userID := userPw]> ∅) new_room
             end).
  assert (Hreg : register rooms src = Done (<[roomID := v1]> rooms) [] None).
  { unfold register, v1. rewrite Hsplit. simpl.
    destruct (rooms !! roomID); reflexivity. }
  assert (Hidle1 : ctl (room v1) = Idle).
  { unfold v1. destruct (rooms !! roomID) as [v|] eqn:Hv; simpl; auto. }
  assert (Hpw : userList v1 !! userID = Some userPw).
  { unfold v1. destruct (rooms !! roomID); simpl; apply lookup_insert_eq. }
  pose proof (login_accepted so now (<[roomID := v1]> rooms) src roomID userID
                userPw rest v1 Hsplit (lookup_insert_eq _ _ _) Hpw Hidle1) as Hlogin.
  eexists. eexists.
  exists (mkSubscription (archive (room v1)) (length (heap (room v1)))).
  eexists. split; [exact Hreg|]. split; [exact Hlogin|].
  split; [apply lookup_insert_eq|]. simpl. split; [reflexivity|].
  apply elem_of_app. right. apply list_elem_of_singleton. reflexivity.
Qed.

Lemma register_then_login_witness :
  ∃ rooms1 rooms2 s v2,
    register ∅ "R1|alice|pw1" = Done rooms1 [] None
    ∧ login 7 100 rooms1 "R1|alice|pw1"
      = Done rooms2 (map (fun event => mkEmit 7 "event" (PEvent event)) (Archive s))
             (Some s)
    ∧ rooms2 !! "R1" = Some v2
    ∧ ctl (room v2) = Fanout (NewEvent 100 "join" "alice" "") (subscribers (room v2))
    ∧ New s ∈ subscribers (room v2).
Proof.
  apply (register_then_login 7 100 ∅ "R1|alice|pw1" "R1" "alice" "pw1" []).
  - vm_compute. reflexivity.
  - intros v Hv. rewrite lookup_empty in Hv. discriminate Hv.
Defined.

(** *** What the room operations leave alone *)

Lemma same_users_set_room (rooms : gmap string Channels) key v r :
  rooms !! key = Some v → same_users rooms (set_room rooms key v r).
Proof.
  intros Hv k. unfold set_room. destruct (decide (k = key)) as [-> | Hne].
  - rewrite lookup_insert_eq, Hv. reflexivity.
  - rewrite lookup_insert_ne by congruence. reflexivity.
Qed.

Lemma same_users_trans (a b c : gmap string Channels) :
  same_users a b → same_users b c → same_users a c.
Proof. intros Hab Hbc k. rewrite Hbc, Hab. reflexivity. Qed.

Lemma Subscribe_same_users (rooms : gmap string Channels) key rooms1 s :
  Subscribe rooms key = Some (rooms1, s) → same_users rooms rooms1.
Proof.
  unfold Subscribe. destruct (rooms !! key) as [v|] eqn:Hv; [|discriminate].
  destruct (step (room v) RecvSubscribe) as [[r1 o1]|]; [|discriminate].
  destruct (step r1 SendReply) as [[r2 [|[] [|? ?]]]|]; try discriminate.
  intros [= <- _]. apply same_users_set_room. exact Hv.
Qed.

Lemma publish_same_users (rooms : gmap string Channels) key event rooms1 :
  publish rooms key event = Some rooms1 → same_users rooms rooms1.
Proof.
  unfold publish. destruct (rooms !! key) as [v|] eqn:Hv; [|discriminate].
  destruct (step (room v) (RecvPublish event)) as [[r1 o1]|]; [|discriminate].
  intros [= <-]. apply same_users_set_room. exact Hv.
Qed.

Lemma Cancel_same_users (rooms : gmap string Channels) key s rooms1 :
  Cancel s key rooms = Some rooms1 → same_users rooms rooms1.
Proof.
  unfold Cancel. destruct (rooms !! key) as [v|] eqn:Hv; [|discriminate].
  destruct (step (room v) (RecvUnsubscribe (New s))) as [[r1 o1]|]; [|discriminate].
  destruct (step r1 (ClientDrain (New s))) as [[r2 o2]|]; [|discriminate].
  intros [= <-]. apply same_users_set_room. exact Hv.
Qed.

(** X15.  A login, whatever its outcome, leaves the rooms and their user
    lists as they were: it creates no room and changes no password. *)
Theorem login_keeps_credentials so now (rooms : gmap string Channels) src rooms' out s :
  login so now rooms src = Done rooms' out s →
  same_users rooms rooms'.
Proof.
  unfold login.
  destruct (strings_Split pipe src) as [|roomID [|userID [|userPw fs]]]; simpl;
    try discriminate.
  destruct (rooms !! roomID) as [v|]; [|intros [= <- _ _] k; reflexivity].
  destruct (userList v !! userID) as [pw|]; [|intros [= <- _ _] k; reflexivity].
  case_decide; [|intros [= <- _ _] k; reflexivity].
  destruct (Subscribe rooms roomID) as [[rooms1 s1]|] eqn:Hsub; [|discriminate].
  destruct (Join now userID roomID rooms1) as [rooms2|] eqn:Hjoin; [|discriminate].
  intros [= <- _ _].
  eapply same_users_trans; [eapply Subscribe_same_users; eassumption|].
  eapply publish_same_users. exact Hjoin.
Qed.

Lemma login_keeps_credentials_witness :
  same_users rooms_alice
    (<["R1" := mkChannels (<["alice" := "pw1"]> ∅)
                 (mkRoom [] [0] [mkChan 10 []]
                         (Fanout (NewEvent 100 "join" "alice" "") [0]))]> ∅).
Proof.
  apply (login_keeps_credentials 7 100 rooms_alice "R1|alice|pw1" _ []
           (Some (mkSubscription [] 0))).
  vm_compute. reflexivity.
Defined.

(** X16.  Publishing an event ([Join], [Say], [Leave]) and cancelling a
    subscription leave the rooms and their user lists as they were. *)
Theorem session_keeps_credentials
    now (rooms : gmap string Channels) user text key s :
  (∀ rooms', Join now user key rooms = Some rooms' → same_users rooms rooms')
  ∧ (∀ rooms', Say now user text key rooms = Some rooms' → same_users rooms rooms')
  ∧ (∀ rooms', Leave now user key rooms = Some rooms' → same_users rooms rooms')
  ∧ (∀ rooms', Cancel s key rooms = Some rooms' → same_users rooms rooms').
Proof.
  unfold Join, Say, Leave.
  split; [|split; [|split]]; intros rooms' H;
    first [eapply publish_same_users; exact H | eapply Cancel_same_users; exact H].
Qed.

(** X17.  A login that is let in emits the snapshot and nothing else: one
    "event" per archived event, in the order of the archive, at most twenty,
    all on the socket of the caller. *)
Theorem login_backlog_bounded
    so now (rooms : gmap string Channels) src roomID userID userPw rest v :
  strings_Split pipe src = roomID :: userID :: userPw :: rest →
  rooms !! roomID = Some v →
  userList v !! userID = Some userPw →
  reachable (room v) →
  ctl (room v) = Idle →
  ∃ rooms' out s,
    login so now rooms src = Done rooms' out (Some s)
    ∧ out = map (fun event => mkEmit so "event" (PEvent event)) (archive (room v))
    ∧ Archive s = archive (room v)
    ∧ (length out ≤ 20)%nat.
Proof.
  intros Hsplit Hv Hpw (tr & o & Hrun) Hidle.
  do 3 eexists. split; [eapply login_accepted; eassumption|].
  split; [reflexivity|]. split; [reflexivity|].
  rewrite length_map.
  destruct (archive_reachable _ _ _ Hrun) as (h & _ & Ha).
  rewrite Ha, length_lastn. lia.
Qed.

Lemma login_backlog_bounded_witness :
  ∃ rooms' out s,
    login 7 100 rooms_two "R1|alice|pw1" = Done rooms' out (Some s)
    ∧ out = map (fun event => mkEmit 7 "event" (PEvent event)) (archive room_two)
    ∧ Archive s = archive room_two
    ∧ (length out ≤ 20)%nat.
Proof.
  apply (login_backlog_bounded 7 100 rooms_two "R1|alice|pw1" "R1" "alice" "pw1" []
           (mkChannels (<["alice" := "pw1"]> ∅) room_two)).
  - vm_compute. reflexivity.
  - vm_compute. reflexivity.
  - vm_compute. reflexivity.
  - exists trace_two. eexists. vm_compute. reflexivity.
  - reflexivity.
Defined.

(** *** Leaving a room *)

(** [Cancel] in a room whose goroutine is at its [select]. *)
Lemma Cancel_idle (rooms : gmap string Channels) key v s :
  rooms !! key = Some v →
  ctl (room v) = Idle →
  Cancel s key rooms
  = Some (<[key := mkChannels (userList v)
                     (mkRoom (archive (room v))
                             (remove_first (New s) (subscribers (room v)))
                             (match heap (room v) !! New s with
                              | Some ch => <[New s := mkChan (cap ch) []]> (heap (room v))
                              | None => heap (room v)
                              end)
                             Idle)]> rooms).
Proof.
  intros Hv Hidle. unfold Cancel. rewrite Hv.
  unfold step at 1. rewrite Hidle. unfold step. simpl.
  destruct (heap (room v) !! New s) as [ch|]; simpl;
    rewrite ?drain_nil; reflexivity.
Qed.

Lemma bufOf_heap a s h p a' s' p' c :
  bufOf (mkRoom a s h p) c = bufOf (mkRoom a' s' h p') c.
Proof. reflexivity. Qed.

(** X18.  A [Cancel] in a room whose goroutine is at its [select] takes
    the channel out of the members and leaves its queue empty.  The archive,
    the user list, the other members and their queues are as before. *)
Theorem Cancel_retires (rooms : gmap string Channels) key v s :
  rooms !! key = Some v →
  reachable (room v) →
  ctl (room v) = Idle →
  ∃ rooms1 v1,
    Cancel s key rooms = Some rooms1
    ∧ rooms1 !! key = Some v1
    ∧ userList v1 = userList v
    ∧ archive (room v1) = archive (room v)
    ∧ ctl (room v1) = Idle
    ∧ (New s ∉ subscribers (room v1))
    ∧ bufOf (room v1) (New s) = []
    ∧ ∀ c, c ≠ New s →
        (c ∈ subscribers (room v1) ↔ c ∈ subscribers (room v))
        ∧ bufOf (room v1) c = bufOf (room v) c.
Proof.
  intros Hv Hreach Hidle.
  destruct (reachable_wf _ Hreach) as (Hnd & _ & _).
  eexists. eexists. split; [exact (Cancel_idle _ _ _ s Hv Hidle)|].
  split; [apply lookup_insert_eq|]. simpl.
  split; [reflexivity|]. split; [reflexivity|]. split; [reflexivity|].
  split; [apply remove_first_gone; exact Hnd|]. split.
  - unfold bufOf. simpl. destruct (heap (room v) !! New s) as [ch|] eqn:Hch.
    + rewrite list_lookup_insert_eq by (eapply lookup_lt_Some; eassumption).
      reflexivity.
    + rewrite Hch. reflexivity.
  - intros c Hc. split.
    + split; [apply remove_first_sub | apply remove_first_other; exact Hc].
    + unfold bufOf. simpl. destruct (heap (room v) !! New s) as [ch|]; [|reflexivity].
      rewrite list_lookup_insert_ne by congruence. reflexivity.
Qed.

Lemma Cancel_retires_witness :
  ∃ rooms1 v1,
    Cancel (mkSubscription [] 0) "R1" rooms_two = Some rooms1
    ∧ rooms1 !! "R1" = Some v1
    ∧ userList v1 = <["alice" := "pw1"]> ∅
    ∧ archive (room v1) = [said 0]
    ∧ ctl (room v1) = Idle
    ∧ (0 ∉ subscribers (room v1))
    ∧ bufOf (room v1) 0 = []
    ∧ ∀ c, c ≠ 0 →
        (c ∈ subscribers (room v1) ↔ c ∈ subscribers room_two)
        ∧ bufOf (room v1) c = bufOf room_two c.
Proof.
  refine (Cancel_retires rooms_two "R1"
            (mkChannels (<["alice" := "pw1"]> ∅) room_two) (mkSubscription [] 0) _ _ _).
  - vm_compute. reflexivity.
  - exists trace_two. eexists. vm_compute. reflexivity.
  - reflexivity.
Defined.

(** X19.  The callback for "disconnection" in a quiet room whose members
    all have room in their queues: the leave event is sent to every member,
    the leaver included, and stored; then the leaver's channel is taken out
    of the members and emptied.  Every other member keeps its place and
    finds the leave event at the end of its queue. *)
Theorem disconnection_leaves_room
    now userID roomID s (rooms : gmap string Channels) v :
  rooms !! roomID = Some v →
  reachable (room v) →
  ctl (room v) = Idle →
  has_room (room v) →
  let left := NewEvent now "leave" userID "" in
  ∃ rooms' v',
    disconnection now userID roomID s rooms
      = Some (rooms', map (fun c => Delivered c left) (subscribers (room v)))
    ∧ rooms' !! roomID = Some v'
    ∧ userList v' = userList v
    ∧ ctl (room v') = Idle
    ∧ archive (room v') = push_archive (archive (room v)) left
    ∧ (New s ∉ subscribers (room v'))
    ∧ bufOf (room v') (New s) = []
    ∧ ∀ c, c ≠ New s →
        (c ∈ subscribers (room v') ↔ c ∈ subscribers (room v))
        ∧ bufOf (room v') c
          = bufOf (room v) c
            ++ (if decide (c ∈ subscribers (room v)) then [left] else []).
Proof.
  intros Hv Hreach Hidle Hroom left.
  destruct (reachable_wf _ Hreach) as (Hnd & _ & _).
  set (r1 := set_ctl (room v) (Fanout left (subscribers (room v)))).
  destruct (finish_fanout r1 left (subscribers (room v)) eq_refl Hnd Hroom)
    as (r2 & Hrun & Hctl2 & Ha2 & Hs2 & Hb2).
  set (rooms1 := <[roomID := mkChannels (userList v) r1]> rooms).
  set (rooms2 := <[roomID := mkChannels (userList v) r2]> rooms1).
  assert (Hdis : disconnection now userID roomID s rooms
                 = match Cancel s roomID rooms2 with
                   | Some rooms3 =>
                       Some (rooms3, map (fun c => Delivered c left) (subscribers (room v)))
                   | None => None
                   end).
  { unfold disconnection, Leave. fold left.
    rewrite (publish_idle _ _ _ left Hv Hidle). fold r1. fold rooms1.
    unfold rooms1 at 1. rewrite lookup_insert_eq. cbn [room].
    unfold serve. unfold rooms1 at 1. rewrite lookup_insert_eq. cbn [room].
    rewrite Hrun. reflexivity. }
  rewrite Hdis.
  rewrite (Cancel_idle rooms2 roomID (mkChannels (userList v) r2) s
             (lookup_insert_eq _ _ _) Hctl2).
  cbn [room userList].
  eexists. eexists. split; [reflexivity|].
  split; [apply lookup_insert_eq|]. cbn [room userList archive subscribers ctl].
  split; [reflexivity|]. split; [reflexivity|]. split; [exact Ha2|].
  rewrite Hs2. cbn [subscribers r1 set_ctl].
  split; [apply remove_first_gone; exact Hnd|]. split.
  - unfold bufOf. cbn [heap]. destruct (heap r2 !! New s) as [ch|] eqn:Hch.
    + rewrite list_lookup_insert_eq by (eapply lookup_lt_Some; eassumption).
      reflexivity.
    + rewrite Hch. reflexivity.
  - intros c Hc. split.
    + split; [apply remove_first_sub | apply remove_first_other; exact Hc].
    + rewrite <- (Hb2 c : bufOf r2 c = bufOf (room v) c ++ _).
      unfold bufOf. cbn [heap].
      destruct (heap r2 !! New s) as [ch|]; [|reflexivity].
      rewrite list_lookup_insert_ne by congruence. reflexivity.
Qed.

Lemma disconnection_leaves_room_witness :
  let left := NewEvent 200 "leave" "alice" "" in
  ∃ rooms' v',
    disconnection 200 "alice" "R1" (mkSubscription [] 0) rooms_two
      = Some (rooms', map (fun c => Delivered c left) (subscribers room_two))
    ∧ rooms' !! "R1" = Some v'
    ∧ userList v' = <["alice" := "pw1"]> ∅
    ∧ ctl (room v') = Idle
    ∧ archive (room v') = push_archive (archive room_two) left
    ∧ (0 ∉ subscribers (room v'))
    ∧ bufOf (room v') 0 = []
    ∧ ∀ c, c ≠ 0 →
        (c ∈ subscribers (room v') ↔ c ∈ subscribers room_two)
        ∧ bufOf (room v') c
          = bufOf room_two c
            ++ (if decide (c ∈ subscribers room_two) then [left] else []).
Proof.
  refine (disconnection_leaves_room 200 "alice" "R1" (mkSubscription [] 0) rooms_two
            (mkChannels (<["alice" := "pw1"]> ∅) room_two) _ _ _ _).
  - vm_compute. reflexivity.
  - exists trace_two. eexists. vm_compute. reflexivity.
  - reflexivity.
  - intros c Hc. simpl in Hc.
    apply elem_of_cons in Hc as [-> | Hc];
      [|apply list_elem_of_singleton in Hc; subst c].
    + eexists. split; [reflexivity | simpl; lia].
    + eexists. split; [reflexivity | simpl; lia].
Defined.

(** *** Joining a room *)



(** X21.  Whatever the payload, all that a returning [register] adds to
    the registry is free of pipe characters: a room id that was not there
    before holds none, and neither does any user id or password that the
    room did not list before with that password.  Everything else in the
    registry was there before. *)
Theorem registered_names_pipe_free (rooms : gmap string Channels) src rooms' out s :
  register rooms src = Done rooms' out s →
  ∀ k v', rooms' !! k = Some v' →
    (rooms !! k = None → pipe_free k)
    ∧ ∀ u pw, userList v' !! u = Some pw →
        (∀ v, rooms !! k = Some v → userList v !! u ≠ Some pw) →
        pipe_free u ∧ pipe_free pw.
Proof.
  unfold register. pose proof (Split_fields_free pipe src) as Hfree.
  destruct (strings_Split pipe src) as [|roomID [|userID [|userPw fs]]]; simpl;
    try discriminate.
  apply Forall_cons in Hfree as [Hr Hfree].
  apply Forall_cons in Hfree as [Hu Hfree].
  apply Forall_cons in Hfree as [Hp _].
  destruct (rooms !! roomID) as [v0|] eqn:Hv0; intros [= <- _ _] k v' Hk;
    (destruct (decide (k = roomID)) as [-> | Hne];
     [rewrite lookup_insert_eq in Hk; injection Hk as <-
     |rewrite lookup_insert_ne in Hk by congruence]).
  - split; [intros; exact Hr|]. intros u pw Hupw Hnew. simpl in Hupw.
    destruct (decide (u = userID)) as [-> | Hu'].
    + rewrite lookup_insert_eq in Hupw. injection Hupw as <-. auto.
    + rewrite lookup_insert_ne in Hupw by congruence.
      exfalso. exact (Hnew v0 Hv0 Hupw).
  - split; [intros Hnone; congruence|]. intros u pw Hupw Hnew.
    exfalso. exact (Hnew v' Hk Hupw).
  - split; [intros; exact Hr|]. intros u pw Hupw Hnew. simpl in Hupw.
    destruct (decide (u = userID)) as [-> | Hu'].
    + rewrite lookup_insert_eq in Hupw. injection Hupw as <-. auto.
    + rewrite lookup_insert_ne in Hupw by congruence.
      rewrite lookup_empty in Hupw. discriminate Hupw.
  - split; [intros Hnone; congruence|]. intros u pw Hupw Hnew.
    exfalso. exact (Hnew v' Hk Hupw).
Qed.

Lemma registered_names_pipe_free_witness :
  pipe_free "R1" ∧ pipe_free "alice" ∧ pipe_free "pw1".
Proof.
  assert (Hreg : register ∅ "R1|alice|pw1|more" = Done rooms_alice [] None)
    by (vm_compute; reflexivity).
  assert (Hk : rooms_alice !! "R1"
               = Some (mkChannels (<["alice" := "pw1"]> ∅) new_room))
    by (vm_compute; reflexivity).
  destruct (registered_names_pipe_free ∅ "R1|alice|pw1|more" rooms_alice [] None
              Hreg "R1" _ Hk) as [Hroom Huser].
  split.
  - apply Hroom. vm_compute. reflexivity.
  - apply (Huser "alice" "pw1").
    + vm_compute. reflexivity.
    + intros v Hv. rewrite lookup_empty in Hv. discriminate Hv.
Defined.

End ServerExtras.
